(** * PyHail, [mesh_ppi_new.main]: a shallow embedding and its properties

    The development follows [src/pyhail/mesh_ppi_new.py] block by block.
    [main] is one long function.  Every block of it is a definition of its
    own here, marked with the lines it embeds, and [main] is the
    composition of the blocks in source order.  Properties are stated on
    the blocks, for every state that can enter them, and on [main].

    Numbers.  The arrays of the program hold IEEE doubles.  They are
    idealised as real numbers together with the not-a-number value, which
    the program produces and tests for on purpose.  Rounding, overflow and
    the two infinities are outside of the idealisation: a quotient by zero
    is not-a-number here.

    Arrays.  A one-dimensional array is a list, a two-dimensional array a
    list of rows.  Indexing, broadcasting and masked assignment follow
    numpy, with the exceptions numpy raises.  The reflectivity arrays are
    objects that the caller shares with [main]; they live in a store, and
    the lists of the program hold references into it.

    Collaborators.  [common.antenna_to_cartesian], [common.safe_log] and
    [numpy.argsort] are not part of the file; they are parameters of the
    section that holds [main]. *)

From Stdlib Require Import Reals Lra Lia ZArith List String Permutation Sorted.
From stdpp Require Import base list sorting.
Import ListNotations.

Local Open Scope R_scope.

(** ** Scalars *)

Inductive num : Type :=
| NaN
| Fin (r : R).

Definition Rltb (x y : R) : bool := if Rlt_dec x y then true else false.
Definition Rleb (x y : R) : bool := if Rle_dec x y then true else false.
Definition Reqb (x y : R) : bool := if Req_dec_T x y then true else false.

Definition lift2 (f : R -> R -> R) (a b : num) : num :=
  match a, b with
  | Fin x, Fin y => Fin (f x y)
  | _, _ => NaN
  end.

Definition nadd : num -> num -> num := lift2 Rplus.
Definition nsub : num -> num -> num := lift2 Rminus.
Definition nmul : num -> num -> num := lift2 Rmult.

Definition ndiv (a b : num) : num :=
  match a, b with
  | Fin x, Fin y => if Req_dec_T y 0 then NaN else Fin (x / y)
  | _, _ => NaN
  end.

(** Comparisons: every comparison with not-a-number is false. *)
Definition ncmp (c : R -> R -> bool) (a b : num) : bool :=
  match a, b with
  | Fin x, Fin y => c x y
  | _, _ => false
  end.

Definition nltb : num -> num -> bool := ncmp Rltb.
Definition nleb : num -> num -> bool := ncmp Rleb.
Definition ngtb (a b : num) : bool := nltb b a.
Definition ngeb (a b : num) : bool := nleb b a.
Definition neqb : num -> num -> bool := ncmp Reqb.

(** [np.min] and [np.max] of two values propagate not-a-number. *)
Definition nmin : num -> num -> num := lift2 Rmin.
Definition nmax : num -> num -> num := lift2 Rmax.

(** [a ** 2]: numpy squares. *)
Definition nsquare (a : num) : num := nmul a a.

(** [np.sqrt]. *)
Definition nsqrt (a : num) : num :=
  match a with
  | Fin x => if Rle_dec 0 x then Fin (sqrt x) else NaN
  | NaN => NaN
  end.

(** [a ** e] for a real exponent: a negative base has no real power, zero
    to a positive power is zero. *)
Definition npow (a e : num) : num :=
  match a, e with
  | Fin x, Fin y =>
      if Rlt_dec 0 x then Fin (Rpower x y)
      else if Req_dec_T x 0 then
        (if Rlt_dec 0 y then Fin 0 else if Req_dec_T y 0 then Fin 1 else NaN)
      else NaN
  | _, _ => NaN
  end.

Definition is_nan (a : num) : bool :=
  match a with
  | NaN => true
  | Fin _ => false
  end.

(** ** Exceptions and the error monad *)

Inductive exn : Type :=
| ValueError (msg : string)
| PyException (msg : string)
| PyWarning (msg : string)
| IndexError
| TypeError
| UnboundLocalError.

Inductive result (A : Type) : Type :=
| Ok (a : A)
| Err (e : exn).

Arguments Ok {A} a.
Arguments Err {A} e.

Definition bind {A B : Type} (m : result A) (k : A -> result B) : result B :=
  match m with
  | Ok a => k a
  | Err e => Err e
  end.

Notation "x <- m ;; k" := (bind m (fun x => k))
  (at level 100, m at next level, right associativity).

Fixpoint traverse {A B : Type} (f : A -> result B) (l : list A) : result (list B) :=
  match l with
  | [] => Ok []
  | a :: t => b <- f a ;; bs <- traverse f t ;; Ok (b :: bs)
  end.

Fixpoint fold_loop {A S : Type} (f : S -> A -> result S) (s : S) (l : list A) : result S :=
  match l with
  | [] => Ok s
  | a :: t => s' <- f s a ;; fold_loop f s' t
  end.

(** ** Arrays *)

Abbreviation vec := (list num) (only parsing).
Abbreviation grid := (list (list num)) (only parsing).
Abbreviation mask := (list (list bool)) (only parsing).

Definition broadcast_error : exn :=
  ValueError "operands could not be broadcast together".

(** One axis of numpy's broadcasting: equal lengths pair up, a length of
    one is stretched, anything else is refused. *)
Definition bzip {A B C : Type} (f : A -> B -> result C)
    (la : list A) (lb : list B) : result (list C) :=
  if Nat.eqb (length la) (length lb) then
    traverse (fun p : A * B => f (fst p) (snd p)) (combine la lb)
  else
    match la, lb with
    | [a], _ => traverse (f a) lb
    | _, [b] => traverse (fun a => f a b) la
    | _, _ => Err broadcast_error
    end.

Definition grid_zip {A B C : Type} (f : A -> B -> C)
    (g1 : list (list A)) (g2 : list (list B)) : result (list (list C)) :=
  bzip (bzip (fun a b => Ok (f a b))) g1 g2.

Definition grid_map {A B : Type} (f : A -> B) (g : list (list A)) : list (list B) :=
  map (map f) g.

(** [a[m] = v] with a boolean array [m]: the shapes must agree. *)
Definition row_setmask {A : Type} (r : list A) (m : list bool) (v : A) : result (list A) :=
  if Nat.eqb (length r) (length m) then
    Ok (map (fun p : A * bool => if snd p then v else fst p) (combine r m))
  else Err IndexError.

Definition grid_setmask {A : Type} (g : list (list A)) (m : mask) (v : A)
  : result (list (list A)) :=
  if Nat.eqb (length g) (length m) then
    traverse (fun p : list A * list bool => row_setmask (fst p) (snd p) v) (combine g m)
  else Err IndexError.

(** [l[k]] on a Python sequence: a negative [k] counts from the end, and
    an index outside of the sequence raises. *)
Definition item {A : Type} (l : list A) (k : Z) : result A :=
  let n := Z.of_nat (length l) in
  let k' := if (k <? 0)%Z then (k + n)%Z else k in
  if (k' <? 0)%Z then Err IndexError
  else match l !! Z.to_nat k' with
       | Some x => Ok x
       | None => Err IndexError
       end.

Definition grid_item {A : Type} (g : list (list A)) (a r : Z) : result A :=
  row <- item g a ;; item row r.

(** An array of at most two dimensions, as the result of an indexing
    expression whose dimension depends on the number of indices. *)
Inductive ndarray : Type :=
| Arr0 (x : num)
| Arr1 (v : vec)
| Arr2 (g : grid).

Inductive index : Type :=
| Int (k : Z)
| FullSlice.

(** [a[i1, ..., ik]] where every index is an integer or the slice [:].
    More indices than dimensions is numpy's "too many indices for array". *)
Definition getitem (a : ndarray) (ix : list index) : result ndarray :=
  match a, ix with
  | _, [] => Ok a
  | Arr0 _, _ :: _ => Err IndexError
  | Arr1 v, [Int k] => x <- item v k ;; Ok (Arr0 x)
  | Arr1 v, [FullSlice] => Ok (Arr1 v)
  | Arr1 _, _ :: _ :: _ => Err IndexError
  | Arr2 g, [Int k] => v <- item g k ;; Ok (Arr1 v)
  | Arr2 g, [FullSlice] => Ok (Arr2 g)
  | Arr2 g, [Int k; Int j] => x <- grid_item g k j ;; Ok (Arr0 x)
  | Arr2 g, [Int k; FullSlice] => v <- item g k ;; Ok (Arr1 v)
  | Arr2 g, [FullSlice; Int j] => v <- traverse (fun row : vec => item row j) g ;; Ok (Arr1 v)
  | Arr2 g, [FullSlice; FullSlice] => Ok (Arr2 g)
  | Arr2 _, _ :: _ :: _ :: _ => Err IndexError
  end.

(** An elementwise binary operation with broadcasting: the shapes are
    aligned at their last axis. *)
Definition nd_zip (f : num -> num -> num) (a b : ndarray) : result ndarray :=
  let fr := fun x y => Ok (f x y) in
  match a, b with
  | Arr0 x, Arr0 y => Ok (Arr0 (f x y))
  | Arr0 x, Arr1 w => Ok (Arr1 (map (f x) w))
  | Arr1 v, Arr0 y => Ok (Arr1 (map (fun x => f x y) v))
  | Arr0 x, Arr2 h => Ok (Arr2 (grid_map (f x) h))
  | Arr2 g, Arr0 y => Ok (Arr2 (grid_map (fun x => f x y) g))
  | Arr1 v, Arr1 w => r <- bzip fr v w ;; Ok (Arr1 r)
  | Arr1 v, Arr2 h => r <- traverse (fun row : vec => bzip fr v row) h ;; Ok (Arr2 r)
  | Arr2 g, Arr1 w => r <- traverse (fun row : vec => bzip fr row w) g ;; Ok (Arr2 r)
  | Arr2 g, Arr2 h => r <- grid_zip f g h ;; Ok (Arr2 r)
  end.

(** The value of an array expression used as a condition: only a single
    value has a truth value. *)
Definition scalar_of (a : ndarray) : result num :=
  match a with
  | Arr0 x => Ok x
  | _ => Err (ValueError "The truth value of an array with more than one element is ambiguous")
  end.

(** [g[a, r] = x]. *)
Definition setitem (g : grid) (a r : Z) (x : num) : result grid :=
  row <- item g a ;;
  _ <- item row r ;;
  let a' := Z.to_nat (if (a <? 0)%Z then a + Z.of_nat (length g) else a)%Z in
  let r' := Z.to_nat (if (r <? 0)%Z then r + Z.of_nat (length row) else r)%Z in
  Ok (<[a' := <[r' := x]> row]> g).

(** [g[a, r] = v] where [v] is itself a two-dimensional array: numpy takes
    the single value of a one-element array and refuses any other. *)
Definition setitem_array (g : grid) (a r : Z) (v : grid) : result grid :=
  match v with
  | [[x]] => setitem g a r x
  | _ => Err (ValueError "setting an array element with a sequence.")
  end.

(** [np.meshgrid(xv, yv)] with the default indexing: both results have
    [len(yv)] rows and [len(xv)] columns. *)
Definition meshgrid (xv yv : vec) : grid * grid :=
  (map (fun _ => xv) yv, map (fun y => map (fun _ => y) xv) yv).

(** [np.min] and [np.max] of a sequence. *)
Definition np_min (v : vec) : result num :=
  match v with
  | [] => Err (ValueError "zero-size array to reduction operation minimum which has no identity")
  | x :: t => Ok (fold_left nmin t x)
  end.

Definition np_max (v : vec) : result num :=
  match v with
  | [] => Err (ValueError "zero-size array to reduction operation maximum which has no identity")
  | x :: t => Ok (fold_left nmax t x)
  end.

(** [np.argmin] of the flattened array: the first position of the least
    value, a not-a-number being least. *)
Fixpoint argmin_from (best : num) (bi i : nat) (l : vec) : nat :=
  match l with
  | [] => bi
  | x :: t =>
      if is_nan best then bi
      else if is_nan x || nltb x best then argmin_from x i (S i) t
      else argmin_from best bi (S i) t
  end.

Definition np_argmin (g : grid) : result nat :=
  match concat g with
  | [] => Err (ValueError "attempt to get argmin of an empty sequence")
  | x :: t => Ok (argmin_from x 0 1 t)
  end.

Definition shape (g : grid) : nat * nat :=
  (length g, length (hd [] g)).

Definition unravel_index (k : nat) (sh : nat * nat) : result (Z * Z) :=
  if (k <? fst sh * snd sh)%nat then
    Ok (Z.of_nat (k / snd sh), Z.of_nat (k mod snd sh))
  else Err (ValueError "index is out of bounds for array").

(** [range(a)] for an array [a] of floating-point values: [range] wants
    an integer, and a float array converts into none. *)
Definition py_range_of_array (a : vec) : result (list Z) :=
  Err TypeError.

(** [for idx, value in ...] applied to an integer item: an integer does
    not unpack into two names. *)
Definition unpack_pair (k : Z) : result (Z * num) :=
  Err TypeError.

(** ** The store: reflectivity arrays are objects shared with the caller *)

Abbreviation loc := nat (only parsing).
Abbreviation heap := (list (list (list num))) (only parsing).

Definition deref (h : heap) (l : loc) : result grid :=
  match h !! l with
  | Some g => Ok g
  | None => Err IndexError
  end.

(** ** Arguments and results of [main] *)

Record args : Type := mkArgs {
  reflectivity_dataset : list loc;
  elevation_dataset : vec;
  azimuth_dataset : list vec;
  range_dataset : list vec;
  radar_altitude : num;
  levels : option vec;
  radar_band : string;
  min_range : num;
  max_range : num;
  mesh_method : string;
  correct_cband_refl : bool
}.

Record field (D : Type) : Type := mkField {
  data : D;
  units : string;
  long_name : string;
  description : string;
  comments : option string
}.

Arguments mkField {D} _ _ _ _ _.
Arguments data {D} _.

Definition output_fields : Type :=
  (field (list grid) * field grid * field grid * field grid)%type.

(** ** The state and error monad of [main]

    A computation reads and writes the store and either returns a value or
    raises; what it wrote before raising stays written. *)

Definition M (A : Type) : Type := heap -> heap * result A.

Definition ret {A : Type} (a : A) : M A := fun h => (h, Ok a).

Definition lift {A : Type} (r : result A) : M A := fun h => (h, r).

Definition bindM {A B : Type} (m : M A) (k : A -> M B) : M B :=
  fun h =>
    match m h with
    | (h', Ok a) => k a h'
    | (h', Err e) => (h', Err e)
    end.

Notation "x <~ m ;; k" := (bindM m (fun x => k))
  (at level 100, m at next level, right associativity).

(** Reading an array object, overwriting it in place, and creating a new
    one. *)
Definition read (l : loc) : M grid := fun h => (h, deref h l).

Definition write (l : loc) (g : grid) : M unit := fun h => (<[l := g]> h, Ok tt).

Definition alloc (g : grid) : M loc := fun h => ((h ++ [g])%list, Ok (length h)).

Fixpoint for_each {A S : Type} (f : S -> A -> M S) (s : S) (l : list A) : M S :=
  match l with
  | [] => ret s
  | a :: t => s' <~ f s a ;; for_each f s' t
  end.

(** ** The blocks of [main] *)

Section Main.

Local Open Scope string_scope.

(** [numpy.argsort], [common.antenna_to_cartesian] and [common.safe_log].
    The value of [safe_log] is a complex number, given by its real and its
    imaginary part; it is applied cell by cell. *)
Variable argsort : vec -> list nat.
Variable antenna_to_cartesian : grid -> grid -> grid -> result (grid * grid * grid).
Variable safe_log : num -> num * num.

(** Lines 59-64: the band and the levels. *)
Definition check_arguments (a : args) : result vec :=
  if negb (existsb (String.eqb (radar_band a)) ["C"; "S"]) then
    Err (ValueError "radar_band must be a string of value C or S")
  else
    match levels a with
    | None => Err (ValueError "Missing levels data for freezing level and -20C level")
    | Some lv => Ok lv
    end.

(** Lines 66-68. *)
Definition Zl : num := Fin 40.
Definition Zu : num := Fin 50.

(** Lines 70-73. *)
Definition assign_levels (lv : vec) : result (num * num) :=
  meltlayer <- np_min lv ;;
  neg20layer <- np_max lv ;;
  Ok (meltlayer, neg20layer).

(** Lines 75-81: the four per-sweep sequences, reordered by one index
    list. *)
Record sorted_sweeps : Type := mkSorted {
  s_reflectivity : list loc;
  s_elevation : vec;
  s_azimuth : list vec;
  s_range : list vec
}.

Definition take {A : Type} (l : list A) (idx : list nat) : result (list A) :=
  traverse (fun i : nat => item l (Z.of_nat i)) idx.

Definition sort_by_fixed_angle (a : args) : result sorted_sweeps :=
  let sort_idx := argsort (elevation_dataset a) in
  refl <- take (reflectivity_dataset a) sort_idx ;;
  elev <- take (elevation_dataset a) sort_idx ;;
  az <- take (azimuth_dataset a) sort_idx ;;
  rg <- take (range_dataset a) sort_idx ;;
  Ok (mkSorted refl elev az rg).

(** Lines 83-87. *)
Definition check_sweep_count (n : nat) : result unit :=
  if (n <=? 1)%nat then
    Err (PyException "Require more than one sweep to calculate MESH")
  else if (n <? 10)%nat then
    Err (PyWarning "Number of sweep is less than 10 and not recommended for MESH calculations")
  else Ok tt.

(** The lists and loop variables of lines 89-152.  [reflectivity] is the
    sorted list that the program keeps under the name
    [reflectivity_dataset]; [dz] and [SHI_elements] are loop variables
    that outlive their iteration. *)
Record sweeps : Type := mkSweeps {
  reflectivity : list loc;
  x_dataset : list grid;
  y_dataset : list grid;
  z_dataset : list grid;
  dz_dataset : list ndarray;
  hail_ke_dataset : list grid;
  SHI_elements_dataset : list ndarray;
  valid_dataset : list mask;
  hail_refl_correction_description : string;
  dz : option ndarray;
  SHI_elements : option ndarray
}.

(** Lines 99-106. *)
Definition reproject (rg az : vec) (elevation : num) : result (grid * grid * grid) :=
  let elevation_array := map (fun _ : num => nadd (Fin 0) elevation) rg in
  let azimuth_grid := snd (meshgrid rg az) in
  let range_grid := fst (meshgrid rg elevation_array) in
  let elevation_grid := snd (meshgrid rg elevation_array) in
  antenna_to_cartesian range_grid azimuth_grid elevation_grid.

(** Line 111. *)
Definition calc_ground_range (xs ys : list grid) : result grid :=
  x0 <- item xs 0 ;;
  y0 <- item ys 0 ;;
  s <- grid_zip nadd (grid_map nsquare x0) (grid_map nsquare y0) ;;
  Ok (grid_map nsqrt s).

Definition cband_description : string :=
  "C band hail reflectivity correction applied from Brook et al. 2023 https://arxiv.org/abs/2306.12016".

(** Lines 112-115: the corrected values go to a new array, and entry [i]
    of the local list is bound to it. *)
Definition apply_cband_correction (band : string) (correct : bool) (i : nat)
    (refl : list loc) (desc : string) : M (list loc * string) :=
  if String.eqb band "C" && correct then
    l <~ lift (item refl (Z.of_nat i)) ;;
    g <~ read l ;;
    l' <~ alloc (grid_map (fun v => nsub (nmul v (Fin 1.113)) (Fin 3.929)) g) ;;
    ret (<[i := l']> refl, cband_description)
  else ret (refl, desc).

(** [z[k, :, :]]. *)
Definition z_plane (z : grid) (k : Z) : result ndarray :=
  getitem (Arr2 z) [Int k; FullSlice; FullSlice].

(** Lines 116-123: three independent conditionals. *)
Definition calc_dz (z : grid) (i n_ppi : Z) (dz0 : option ndarray) : result ndarray :=
  dz1 <- (if (i =? 0)%Z then
            hi <- z_plane z (i + 1) ;;
            lo <- z_plane z i ;;
            d <- nd_zip nsub hi lo ;;
            Ok (Some d)
          else Ok dz0) ;;
  dz2 <- (if negb (i =? 0)%Z && negb (i =? n_ppi - 1)%Z then
            hi <- z_plane z (i + 1) ;;
            lo <- z_plane z (i - 1) ;;
            d <- nd_zip nsub hi lo ;;
            h <- nd_zip ndiv d (Arr0 (Fin 2)) ;;
            Ok (Some h)
          else Ok dz1) ;;
  dz3 <- (if (i =? n_ppi - 1)%Z then
            hi <- z_plane z i ;;
            lo <- z_plane z (i - 1) ;;
            d <- nd_zip nsub hi lo ;;
            Ok (Some d)
          else Ok dz2) ;;
  match dz3 with
  | Some d => Ok d
  | None => Err UnboundLocalError
  end.

(** Lines 124-129. *)
Definition calc_reflectivity_weights (refl : grid) : result grid :=
  let w0 := grid_map (fun v => ndiv (nsub v Zl) (nsub Zu Zl)) refl in
  w1 <- grid_setmask w0 (grid_map (fun v => nleb v Zl) refl) (Fin 0) ;;
  w2 <- grid_setmask w1 (grid_map (fun v => ngeb v Zu) refl) (Fin 1) ;;
  w3 <- grid_setmask w2 (grid_map (fun v => nltb v (Fin 0)) w2) (Fin 0) ;;
  grid_setmask w3 (grid_map (fun v => ngtb v (Fin 1)) w3) (Fin 1).

(** Lines 130-132: the two masked assignments write into the array that
    entry [i] of the list refers to. *)
Definition clip_reflectivity (refl : list loc) (i : nat) : M unit :=
  l <~ lift (item refl (Z.of_nat i)) ;;
  g <~ read l ;;
  g1 <~ lift (grid_setmask g (grid_map (fun v => ngtb v (Fin 100)) g) (Fin 100)) ;;
  _ <~ write l g1 ;;
  g1' <~ read l ;;
  g2 <~ lift (grid_setmask g1' (grid_map (fun v => nltb v (Fin (-100))) g1') (Fin (-100))) ;;
  write l g2.

(** Lines 133-134. *)
Definition calc_hail_ke (refl w : grid) : result grid :=
  grid_zip nmul
    (grid_map (fun v => nmul (Fin 5.0e-6) (npow (Fin 10) (nmul (Fin 0.084) v))) refl) w.

(** Lines 136-141. *)
Definition calc_Wt (z : grid) (meltlayer neg20layer : num) : result grid :=
  let w0 := grid_map (fun v => ndiv (nsub v meltlayer) (nsub neg20layer meltlayer)) z in
  w1 <- grid_setmask w0 (grid_map (fun v => nleb v meltlayer) z) (Fin 0) ;;
  w2 <- grid_setmask w1 (grid_map (fun v => ngeb v neg20layer) z) (Fin 1) ;;
  w3 <- grid_setmask w2 (grid_map (fun v => nltb v (Fin 0)) w2) (Fin 0) ;;
  grid_setmask w3 (grid_map (fun v => ngtb v (Fin 1)) w3) (Fin 1).

(** Lines 142-143. *)
Definition calc_SHI_elements (Wt hail_ke : grid) (d : ndarray) : result ndarray :=
  p <- grid_zip nmul Wt hail_ke ;;
  nd_zip nmul (Arr2 p) d.

(** Lines 145-151. *)
Definition calc_valid (Wt hail_ke ground_range : grid) (minr maxr : num) : result mask :=
  m1 <- grid_zip andb (grid_map (fun v => ngtb v (Fin 0)) Wt)
                      (grid_map (fun v => ngtb v (Fin 0)) hail_ke) ;;
  m2 <- grid_zip andb m1 (grid_map (fun v => ngtb v (nmul minr (Fin 1000))) ground_range) ;;
  grid_zip andb m2 (grid_map (fun v => nltb v (nmul maxr (Fin 1000))) ground_range).

(** Lines 98-152: one iteration of the sweep loop. *)
Definition sweep_body (a : args) (s : sorted_sweeps) (meltlayer neg20layer : num)
    (n_ppi : nat) (st : sweeps) (i : nat) : M sweeps :=
  rg <~ lift (item (s_range s) (Z.of_nat i)) ;;
  el <~ lift (item (s_elevation s) (Z.of_nat i)) ;;
  az <~ lift (item (s_azimuth s) (Z.of_nat i)) ;;
  xyz <~ lift (reproject rg az el) ;;
  let x := fst (fst xyz) in
  let y := snd (fst xyz) in
  let z := snd xyz in
  let xs := (x_dataset st ++ [x])%list in
  let ys := (y_dataset st ++ [y])%list in
  let zs := (z_dataset st ++ [grid_map (fun v => nadd v (radar_altitude a)) z])%list in
  ground_range <~ lift (calc_ground_range xs ys) ;;
  rd <~ apply_cband_correction (radar_band a) (correct_cband_refl a) i
          (reflectivity st) (hail_refl_correction_description st) ;;
  d <~ lift (calc_dz z (Z.of_nat i) (Z.of_nat n_ppi) (dz st)) ;;
  l <~ lift (item (fst rd) (Z.of_nat i)) ;;
  g <~ read l ;;
  reflectivity_weights <~ lift (calc_reflectivity_weights g) ;;
  _ <~ clip_reflectivity (fst rd) i ;;
  g' <~ read l ;;
  hail_ke <~ lift (calc_hail_ke g' reflectivity_weights) ;;
  Wt <~ lift (calc_Wt z meltlayer neg20layer) ;;
  elements <~ lift (calc_SHI_elements Wt hail_ke d) ;;
  valid <~ lift (calc_valid Wt hail_ke ground_range (min_range a) (max_range a)) ;;
  ret (mkSweeps (fst rd) xs ys zs
         (dz_dataset st ++ [d])%list
         (hail_ke_dataset st ++ [hail_ke])%list
         (SHI_elements_dataset st ++ [elements])%list
         (valid_dataset st ++ [valid])%list
         (snd rd) (Some d) (Some elements)).

Definition preprocess (a : args) (s : sorted_sweeps) (meltlayer neg20layer : num)
    (n_ppi : nat) : M sweeps :=
  for_each (sweep_body a s meltlayer neg20layer n_ppi)
    (mkSweeps (s_reflectivity s) [] [] [] [] [] [] [] "" None None)
    (seq 0 n_ppi).

(** Lines 172-174: the cell of a sweep nearest to a ground position. *)
Definition nearest_cell (x_ground_coord y_ground_coord : num) (X Y : grid) : result (Z * Z) :=
  d <- grid_zip nadd
         (grid_map (fun v => nsquare (nsub x_ground_coord v)) X)
         (grid_map (fun v => nsquare (nsub y_ground_coord v)) Y) ;;
  k <- np_argmin d ;;
  unravel_index k (shape X).

(** Lines 171-181: the contribution of one higher sweep. *)
Definition add_sweep (st : sweeps) (x_ground_coord y_ground_coord : num)
    (shi_value : num) (sweep_idx : nat) : result num :=
  X <- item (x_dataset st) (Z.of_nat sweep_idx) ;;
  Y <- item (y_dataset st) (Z.of_nat sweep_idx) ;;
  closest_idx <- nearest_cell x_ground_coord y_ground_coord X Y ;;
  vd <- item (valid_dataset st) (Z.of_nat sweep_idx) ;;
  ok <- grid_item vd (fst closest_idx) (snd closest_idx) ;;
  if negb ok then Ok shi_value
  else
    se <- item (SHI_elements_dataset st) (Z.of_nat sweep_idx) ;;
    e <- getitem se [Int (fst closest_idx); Int (snd closest_idx)] ;;
    v <- scalar_of e ;;
    if neqb v (Fin 0) then Ok shi_value
    else Ok (nadd shi_value v).

(** Lines 162-184: one cell of the lowest sweep.  The seed reads the loop
    variable [SHI_elements], and the store at the end writes the product
    of 0.1 and the grid [shi]. *)
Definition shi_cell (st : sweeps) (n_ppi : nat) (shi : grid) (az_idx rg_idx : Z)
  : result grid :=
  v0 <- item (valid_dataset st) 0 ;;
  ok <- grid_item v0 az_idx rg_idx ;;
  seed <- (if ok then
             se <- match SHI_elements st with
                   | Some e => Ok e
                   | None => Err UnboundLocalError
                   end ;;
             row <- getitem se [Int 0] ;;
             e <- getitem row [Int az_idx; Int rg_idx] ;;
             scalar_of e
           else Ok (Fin 0)) ;;
  x0 <- item (x_dataset st) 0 ;;
  x_ground_coord <- grid_item x0 az_idx rg_idx ;;
  y0 <- item (y_dataset st) 0 ;;
  y_ground_coord <- grid_item y0 az_idx rg_idx ;;
  shi_value <- fold_loop (add_sweep st x_ground_coord y_ground_coord) seed
                 (seq 1 (n_ppi - 1)) ;;
  if ngtb shi_value (Fin 0) then
    setitem_array shi az_idx rg_idx (grid_map (nmul (Fin 0.1)) shi)
  else Ok shi.

(** Lines 154-184. *)
Definition column_integration (s : sorted_sweeps) (st : sweeps) (n_ppi : nat)
  : result grid :=
  az0 <- item (s_azimuth s) 0 ;;
  rg0 <- item (s_range s) 0 ;;
  let shi := map (fun _ : num => map (fun _ : num => NaN) rg0) az0 in
  rays <- py_range_of_array az0 ;;
  fold_loop
    (fun shi ray =>
       p <- unpack_pair ray ;;
       bins <- py_range_of_array rg0 ;;
       fold_loop
         (fun shi bin =>
            q <- unpack_pair bin ;;
            shi_cell st n_ppi shi (fst p) (fst q))
         shi bins)
    shi rays.

(** Lines 186-209. *)
Definition mesh_value (c e : R) (s : num) : num := nmul (Fin c) (npow s (Fin e)).

Definition witt_reference : string :=
  "Maximum Estimated Size of Hail retreival developed by Witt et al. 1998 doi:10.1175/1520-0434(1998)013<0286:AEHDAF>2.0.CO;2 ".

Definition mh_reference : string :=
  "Maximum Estimated Size of Hail retreival originally developed by Witt et al. 1998 doi:10.1175/1520-0434(1998)013<0286:AEHDAF>2.0.CO;2 and recalibrated by Murillo and Homeyer (2021) doi:10.1175/JAMC-D-20-0271.1 ".

Definition unknown_method : exn :=
  ValueError "unknown MESH method selects, please use witt1998, mh2019_75 or mh2019_95".

Definition calc_mesh (method : string) (shi : grid) : result (grid * string * string) :=
  if String.eqb method "witt1998" then
    Ok (grid_map (mesh_value 2.54 0.5) shi, witt_reference,
        "75th percentile fit using 147 hail reports; only valid in the first sweep")
  else if String.eqb method "mh2019_75" then
    Ok (grid_map (mesh_value 15.096 0.206) shi, mh_reference,
        "75th percentile fit using 5897 hail reports; only valid in the first sweep")
  else if String.eqb method "mh2019_95" then
    Ok (grid_map (mesh_value 22.157 0.212) shi, mh_reference,
        "95th percentile fit using 5897 hail reports; only valid in the first sweep")
  else Err unknown_method.

(** Lines 211-218.  A real factor and a real summand applied to a complex
    value, and [np.real]. *)
Definition cscale (k : num) (c : num * num) : num * num :=
  (nsub (nmul k (fst c)) (nmul (Fin 0) (snd c)),
   nadd (nmul k (snd c)) (nmul (Fin 0) (fst c))).

Definition cshift (c : num * num) (k : num) : num * num :=
  (nadd (fst c) k, nadd (snd c) (Fin 0)).

Definition np_real (c : num * num) : num := fst c.

Definition warning_threshold (meltlayer : num) : num :=
  nsub (nmul (Fin 57.5) (ndiv meltlayer (Fin 1000))) (Fin 121).

Definition posh_value (WT : num) (s : num) : num :=
  np_real (cshift (cscale (Fin 29) (safe_log (ndiv s WT))) (Fin 50)).

Definition calc_posh (shi : grid) (meltlayer : num) : result grid :=
  let WT := warning_threshold meltlayer in
  let posh := grid_map (posh_value WT) shi in
  p1 <- grid_setmask posh (grid_map (fun v => nltb v (Fin 0)) posh) (Fin 0) ;;
  grid_setmask p1 (grid_map (fun v => ngtb v (Fin 100)) p1) (Fin 100).

(** Lines 221-259. *)
Definition witt_citation : string :=
  "developed by Witt et al. 1998 doi:10.1175/1520-0434(1998)013<0286:AEHDAF>2.0.CO;2 ".

Definition witt_citation_year : string :=
  "developed by Witt et al. (1998) doi:10.1175/1520-0434(1998)013<0286:AEHDAF>2.0.CO;2 ".

Definition pack (method : string) (st : sweeps) (shi mesh posh : grid)
    (mesh_description mesh_comment : string) : output_fields :=
  let note := hail_refl_correction_description st in
  (mkField (hail_ke_dataset st) "Jm-2s-1" "Hail Kinetic Energy"
     ("Hail Kinetic Energy " ++ witt_citation ++ note) None,
   mkField shi "Jm-1s-1" "Severe Hail Index"
     ("Severe Hail Index " ++ witt_citation_year ++ note)
     (Some "only valid in the first sweep"),
   mkField mesh "mm" ("Maximum Expected Size of Hail using " ++ method)
     (mesh_description ++ note) (Some mesh_comment),
   mkField posh "%" "Probability of Severe Hail"
     ("Probability of Severe Hail " ++ witt_citation_year ++ note)
     (Some "only valid in the first sweep")).

(** Lines 59-184: everything up to and including the SHI grid. *)
Definition compute_shi (a : args) : M (num * sweeps * grid) :=
  lv <~ lift (check_arguments a) ;;
  ml <~ lift (assign_levels lv) ;;
  s <~ lift (sort_by_fixed_angle a) ;;
  let n_ppi := length (s_elevation s) in
  _ <~ lift (check_sweep_count n_ppi) ;;
  st <~ preprocess a s (fst ml) (snd ml) n_ppi ;;
  shi <~ lift (column_integration s st n_ppi) ;;
  ret (fst ml, st, shi).

(** Lines 186-259: the two retrievals and the packaging. *)
Definition retrieve (a : args) (r : num * sweeps * grid) : result output_fields :=
  let meltlayer := fst (fst r) in
  let st := snd (fst r) in
  let shi := snd r in
  m <- calc_mesh (mesh_method a) shi ;;
  posh <- calc_posh shi meltlayer ;;
  Ok (pack (mesh_method a) st shi (fst (fst m)) posh (snd (fst m)) (snd m)).

Definition main (a : args) : M output_fields :=
  r <~ compute_shi a ;;
  lift (retrieve a r).

End Main.

(** ** Contracts and concrete data used by the statements below *)

(** The order numpy sorts by: ascending, not-a-number last. *)
Definition sort_le (a b : num) : Prop :=
  match a, b with
  | _, NaN => True
  | NaN, Fin _ => False
  | Fin x, Fin y => x <= y
  end.

(** What [numpy.argsort] promises of its result [idx] on [v]: a
    rearrangement of the positions of [v] that puts [v] in order. *)
Definition is_argsort (v : vec) (idx : list nat) : Prop :=
  Permutation idx (seq 0 (length v)) /\
  Sorted sort_le (map (fun i : nat => nth i v NaN) idx).

(** The four per-sweep sequences of a call have one length. *)
Definition n_sweeps (a : args) (n : nat) : Prop :=
  length (reflectivity_dataset a) = n /\
  length (elevation_dataset a) = n /\
  length (azimuth_dataset a) = n /\
  length (range_dataset a) = n.

(** The sweeps of a call, one tuple per sweep. *)
Definition sweep_rows (a : args) : list (loc * num * vec * vec) :=
  combine (combine (combine (reflectivity_dataset a) (elevation_dataset a))
             (azimuth_dataset a)) (range_dataset a).

(** A stable instance of [numpy.argsort]: insertion from the left, a
    later sweep placed behind the earlier ones that do not exceed it. *)
Definition sort_leb (a b : num) : bool :=
  match a, b with
  | _, NaN => true
  | NaN, Fin _ => false
  | Fin x, Fin y => Rleb x y
  end.

Fixpoint insert_index (v : vec) (i : nat) (l : list nat) : list nat :=
  match l with
  | [] => [i]
  | j :: t =>
      if sort_leb (nth j v NaN) (nth i v NaN) then j :: insert_index v i t
      else i :: l
  end.

Definition stable_argsort (v : vec) : list nat :=
  fold_left (fun acc i => insert_index v i acc) (seq 0 (length v)) [].

(** Modelled from the spec: [common.antenna_to_cartesian] is not under
    src/.  The spec has it convert radar-relative polar geometry, given
    as a range grid, an azimuth grid and an elevation grid, to Cartesian
    metres, without side effects, and gives no formulas.  The model
    converts in the plane, with angles in degrees: the ground distance
    is the range times the cosine of the elevation, x and y are the
    ground distance times the sine and the cosine of the azimuth, and z
    is the range times the sine of the elevation.  The grids are
    combined cell by cell with numpy's broadcasting, so that grids of
    shapes that do not combine are refused. *)
Definition lift1 (f : R -> R) (a : num) : num :=
  match a with
  | Fin x => Fin (f x)
  | NaN => NaN
  end.

Definition radians (a : num) : num := lift1 (fun d => d * PI / 180) a.

Definition plane_cartesian (r az el : grid) : result (grid * grid * grid) :=
  s <- grid_zip (fun rv e => nmul rv (lift1 cos (radians e))) r el ;;
  x <- grid_zip (fun sv a => nmul sv (lift1 sin (radians a))) s az ;;
  y <- grid_zip (fun sv a => nmul sv (lift1 cos (radians a))) s az ;;
  z <- grid_zip (fun rv e => nmul rv (lift1 sin (radians e))) r el ;;
  Ok (x, y, z).

(** Modelled from the spec: [common.safe_log] is not under src/.  The
    spec has it be the natural logarithm, tolerant of non-positive or
    missing input, returning a value from which a real component can
    always be extracted, and never raising.  The spec does not give the
    value returned for a non-positive or missing input; the model
    returns the real number -10 there.  A value is a pair of a real and
    an imaginary component. *)
Definition tolerant_log (x : num) : num * num :=
  match x with
  | Fin r => if Rlt_dec 0 r then (Fin (ln r), Fin 0) else (Fin (-10), Fin 0)
  | NaN => (Fin (-10), Fin 0)
  end.

(** Modelled from the spec: what the spec asks of [common.safe_log],
    which is not under src/: for every input, a zero, negative or
    missing one included, it returns a value from which a real component
    can always be extracted, here a pair of numbers. *)
Definition returns_numbers (f : num -> num * num) : Prop :=
  forall x, exists re im, f x = (Fin re, Fin im).

Definition uniform (rows cols : nat) (x : R) : grid :=
  repeat (repeat (Fin x) cols) rows.

(** Two sweeps at 0.5 and 1.5 degrees, azimuths 0 and 90 degrees, ranges
    1000 and 2000, reflectivity 55 everywhere, levels 3000 and 5000, band
    S, default ranges and method. *)
Definition two_sweeps : args :=
  mkArgs [0%nat; 1%nat] [Fin 0.5; Fin 1.5]
    [[Fin 0; Fin 90]; [Fin 0; Fin 90]]
    [[Fin 1000; Fin 2000]; [Fin 1000; Fin 2000]]
    (Fin 0) (Some [Fin 3000; Fin 5000]) "S" (Fin 10) (Fin 150) "mh2019_75" true.

Definition two_sweeps_heap : heap := [uniform 2 2 55; uniform 2 2 55].

(** One sweep and a method that does not exist. *)
Definition one_sweep_unknown_method : args :=
  mkArgs [0%nat] [Fin 0.5] [[Fin 0; Fin 90]] [[Fin 1000; Fin 2000]]
    (Fin 0) (Some [Fin 3000; Fin 5000]) "S" (Fin 10) (Fin 150) "nearest" true.

(** A call with another level list. *)
Definition with_levels (a : args) (lv : vec) : args :=
  mkArgs (reflectivity_dataset a) (elevation_dataset a) (azimuth_dataset a)
    (range_dataset a) (radar_altitude a) (Some lv) (radar_band a)
    (min_range a) (max_range a) (mesh_method a) (correct_cband_refl a).

(** Two calls that differ in their sweeps at most. *)
Definition same_settings (a a' : args) : Prop :=
  radar_altitude a = radar_altitude a' /\
  levels a = levels a' /\
  radar_band a = radar_band a' /\
  min_range a = min_range a' /\
  max_range a = max_range a' /\
  mesh_method a = mesh_method a' /\
  correct_cband_refl a = correct_cband_refl a'.

(** The elevation of a sweep tuple, and the tuples of a sorted sweep set. *)
Definition row_key (t : loc * num * vec * vec) : num := snd (fst (fst t)).

Definition sorted_rows (s : sorted_sweeps) : list (loc * num * vec * vec) :=
  combine (combine (combine (s_reflectivity s) (s_elevation s)) (s_azimuth s))
    (s_range s).

Definition unzip_rows (rs : list (loc * num * vec * vec)) : sorted_sweeps :=
  mkSorted (map (fun t => fst (fst (fst t))) rs) (map row_key rs)
    (map (fun t => snd (fst t)) rs) (map snd rs).

(** The two sweeps of [two_sweeps], supplied highest first. *)
Definition two_sweeps_swapped : args :=
  mkArgs [1%nat; 0%nat] [Fin 1.5; Fin 0.5]
    [[Fin 0; Fin 90]; [Fin 0; Fin 90]]
    [[Fin 1000; Fin 2000]; [Fin 1000; Fin 2000]]
    (Fin 0) (Some [Fin 3000; Fin 5000]) "S" (Fin 10) (Fin 150) "mh2019_75" true.

(** Ten sweeps of which the two lowest share the elevation angle 0.5:
    one of two rays and one of three, of two range bins each, in both
    orders.  The other eight sweeps have two rays and two range bins;
    band S, reflectivity 55 everywhere. *)
Definition tied_elevations : vec :=
  [Fin 0.5; Fin 0.5; Fin 1.5; Fin 2.5; Fin 3.5; Fin 4.5; Fin 5.5; Fin 6.5; Fin 7.5; Fin 8.5].

Definition tied_sweeps : args :=
  mkArgs (0%nat :: 1%nat :: seq 2 8) tied_elevations
    ([Fin 0; Fin 90] :: [Fin 0; Fin 120; Fin 240] :: repeat [Fin 0; Fin 90] 8)
    ([Fin 1000; Fin 2000] :: [Fin 1000; Fin 3000] :: repeat [Fin 1000; Fin 2000] 8)
    (Fin 0) (Some [Fin 3000; Fin 5000]) "S" (Fin 10) (Fin 150) "mh2019_75" true.

Definition tied_sweeps_swapped : args :=
  mkArgs (1%nat :: 0%nat :: seq 2 8) tied_elevations
    ([Fin 0; Fin 120; Fin 240] :: [Fin 0; Fin 90] :: repeat [Fin 0; Fin 90] 8)
    ([Fin 1000; Fin 3000] :: [Fin 1000; Fin 2000] :: repeat [Fin 1000; Fin 2000] 8)
    (Fin 0) (Some [Fin 3000; Fin 5000]) "S" (Fin 10) (Fin 150) "mh2019_75" true.

Definition tied_sweeps_heap : heap :=
  uniform 2 2 55 :: uniform 3 2 55 :: repeat (uniform 2 2 55) 8.

(** A value that is a percentage. *)
Definition in_percent_range (p : num) : Prop :=
  exists x, p = Fin x /\ 0 <= x <= 100.

(** The two masked assignments of lines 217-218 on one cell. *)
Definition clip_percent (v : num) : num :=
  let v1 := if nltb v (Fin 0) then Fin 0 else v in
  if ngtb v1 (Fin 100) then Fin 100 else v1.

(** The two masked assignments of lines 131-132 on one cell. *)
Definition clip_dbz (v : num) : num :=
  let v1 := if ngtb v (Fin 100) then Fin 100 else v in
  if nltb v1 (Fin (-100)) then Fin (-100) else v1.

(** Line 114 on one cell. *)
Definition cband_corrected (v : num) : num :=
  nsub (nmul v (Fin 1.113)) (Fin 3.929).

(** The cell of a grid at a row and a column. *)
Definition cell {A : Type} (g : list (list A)) (a r : nat) : option A :=
  match g !! a with
  | Some row => row !! r
  | None => None
  end.

(** A grid of a given number of rows and columns. *)
Definition has_shape {A : Type} (rows cols : nat) (g : list (list A)) : Prop :=
  length g = rows /\ Forall (fun row => length row = cols) g.

(** The fields of two one-cell sweeps as they enter the column
    integration: the SHI elements are 3 below and 5 above, the upper cell
    is valid, and the lowest cell is valid or not as the argument says. *)
Definition one_cell_sweeps (lowest_valid : bool) : sweeps :=
  mkSweeps [0%nat; 1%nat]
    [[[Fin 30000]]; [[Fin 30000]]] [[[Fin 40000]]; [[Fin 40000]]]
    [[[Fin 3500]]; [[Fin 4500]]]
    [Arr2 [[Fin 1000]]; Arr2 [[Fin 1000]]]
    [[[Fin 2]]; [[Fin 2]]]
    [Arr2 [[Fin 3]]; Arr2 [[Fin 5]]]
    [[[lowest_valid]]; [[true]]]
    "" (Some (Arr2 [[Fin 1000]])) (Some (Arr2 [[Fin 5]])).

(** The five assignments of lines 125-129, and of lines 137-141, on one
    cell: a ramp from [lo] to [hi], set to 0 at and below [lo], to 1 at
    and above [hi], and clipped to [0, 1]. *)
Definition ramp (lo hi v : num) : num :=
  let w0 := ndiv (nsub v lo) (nsub hi lo) in
  let w1 := if nleb v lo then Fin 0 else w0 in
  let w2 := if ngeb v hi then Fin 1 else w1 in
  let w3 := if nltb w2 (Fin 0) then Fin 0 else w2 in
  if ngtb w3 (Fin 1) then Fin 1 else w3.

(** Line 134 on one cell, for the raw reflectivity [v] of the cell: the
    energy is taken from the clipped value, the weight from the raw one. *)
Definition hail_ke_value (v : num) : num :=
  nmul (nmul (Fin 5.0e-6) (npow (Fin 10) (nmul (Fin 0.084) (clip_dbz v))))
    (ramp Zl Zu v).

(** ** Data used by the further properties *)

(** One sweep with a band that does not exist, and one without levels. *)
Definition unknown_band : args :=
  mkArgs [0%nat] [Fin 0.5] [[Fin 0; Fin 90]] [[Fin 1000; Fin 2000]]
    (Fin 0) None "X" (Fin 10) (Fin 150) "mh2019_75" true.

Definition missing_levels : args :=
  mkArgs [0%nat] [Fin 0.5] [[Fin 0; Fin 90]] [[Fin 1000; Fin 2000]]
    (Fin 0) None "C" (Fin 10) (Fin 150) "mh2019_75" true.

(** Two elevation angles and a single reflectivity array. *)
Definition short_reflectivity : args :=
  mkArgs [0%nat] [Fin 0.5; Fin 1.5]
    [[Fin 0; Fin 90]; [Fin 0; Fin 90]]
    [[Fin 1000; Fin 2000]; [Fin 1000; Fin 2000]]
    (Fin 0) (Some [Fin 3000; Fin 5000]) "S" (Fin 10) (Fin 150) "mh2019_75" true.

(** Ten sweeps at 0.5, 1.5, ..., 9.5 degrees of two rays and two range
    bins each, reflectivity 55 everywhere, band C with the correction. *)
Definition ten_elevations : vec :=
  [Fin 0.5; Fin 1.5; Fin 2.5; Fin 3.5; Fin 4.5; Fin 5.5; Fin 6.5; Fin 7.5; Fin 8.5; Fin 9.5].

Definition ten_sweeps : args :=
  mkArgs (seq 0 10) ten_elevations
    (repeat [Fin 0; Fin 90] 10) (repeat [Fin 1000; Fin 2000] 10)
    (Fin 0) (Some [Fin 3000; Fin 5000]) "C" (Fin 10) (Fin 150) "mh2019_75" true.

Definition ten_sweeps_heap : heap := repeat (uniform 2 2 55) 10.

(** A value that is a number. *)
Definition finite_num (v : num) : Prop := exists x, v = Fin x.

(** The squared horizontal distance that line 173 minimises. *)
Definition dist2 (x0 y0 x y : R) : R :=
  (x0 - x) * (x0 - x) + (y0 - y) * (y0 - y).

(** Ten sweeps at 0.5, 1.5, ..., 9.5 degrees of two rays and two range
    bins each, band S, with a reflectivity of 150 dBZ everywhere, and
    the same sweeps as the sort leaves them. *)
Definition loud_sweeps : args :=
  mkArgs (seq 0 10) ten_elevations
    (repeat [Fin 0; Fin 90] 10) (repeat [Fin 1000; Fin 2000] 10)
    (Fin 0) (Some [Fin 3000; Fin 5000]) "S" (Fin 10) (Fin 150) "mh2019_75" true.

Definition loud_heap : heap := repeat (uniform 2 2 150) 10.

Definition loud_sorted : sorted_sweeps :=
  mkSorted (seq 0 10) ten_elevations
    (repeat [Fin 0; Fin 90] 10) (repeat [Fin 1000; Fin 2000] 10).

(** The state of the sweep loop before its first iteration (lines
    89-97). *)
Definition first_state (s : sorted_sweeps) : sweeps :=
  mkSweeps (s_reflectivity s) [] [] [] [] [] [] [] "" None None.

(** ** Proof automation *)

(** Decide the comparisons of real constants that a concrete evaluation
    meets. *)
Ltac decide_reals :=
  repeat match goal with
    | |- context [Rle_dec ?a ?b] => destruct (Rle_dec a b); try lra
    | |- context [Rlt_dec ?a ?b] => destruct (Rlt_dec a b); try lra
    | |- context [Req_dec_T ?a ?b] => destruct (Req_dec_T a b); try lra
    end.

Ltac sorted_reals :=
  repeat first [apply Sorted_nil | apply Sorted_cons | apply HdRel_nil | apply HdRel_cons];
  simpl; lra.

(** Evaluate a sort of real constants, one comparison after the other. *)
Ltac sort_reals :=
  repeat (cbn; unfold Rleb;
          match goal with
          | |- context [Rle_dec ?a ?b] =>
              destruct (Rle_dec a b); [|exfalso; lra]
          end).

(** * Properties *)

(** ** Sequences and indices *)

Lemma item_of_nat {A : Type} (l : list A) (i : nat) :
  item l (Z.of_nat i) =
  match l !! i with
  | Some x => Ok x
  | None => Err IndexError
  end.
Proof.
  unfold item.
  destruct (Z.of_nat i <? 0)%Z eqn:E; [apply Z.ltb_lt in E; lia|].
  rewrite E, Nat2Z.id. reflexivity.
Qed.

Lemma take_nth {A : Type} (d : A) (l : list A) (idx : list nat) :
  Forall (fun i => (i < length l)%nat) idx ->
  take l idx = Ok (map (fun i => nth i l d) idx).
Proof.
  induction 1 as [|i idx Hi _ IH]; [reflexivity|].
  unfold take in *. simpl. rewrite item_of_nat.
  destruct (l !! i) as [x|] eqn:E.
  - simpl. rewrite IH. simpl. f_equal. f_equal.
    symmetry. apply nth_lookup_Some with (d := d) in E. exact E.
  - apply lookup_ge_None in E. lia.
Qed.

Lemma perm_seq_bounds (idx : list nat) (n : nat) :
  Permutation idx (seq 0 n) -> Forall (fun i => (i < n)%nat) idx.
Proof.
  intros HP. apply Forall_forall. intros i Hi.
  apply list_elem_of_In in Hi.
  eapply Permutation_in in Hi; [|exact HP].
  apply in_seq in Hi. lia.
Qed.

(** ** Vertical spacing (lines 116-123) *)

Lemma z_plane_raises (z : grid) (k : Z) : z_plane z k = Err IndexError.
Proof. reflexivity. Qed.

(** ** The sweep loop never completes an iteration *)

Section Loop.

Variable argsort : vec -> list nat.
Variable antenna_to_cartesian : grid -> grid -> grid -> result (grid * grid * grid).
Variable safe_log : num -> num * num.

Lemma dz_always_raises (z : grid) (i n_ppi : Z) (dz0 : option ndarray) :
  calc_dz z i n_ppi dz0 = Err IndexError.
Proof.
  unfold calc_dz. rewrite !z_plane_raises.
  destruct (i =? 0)%Z; simpl; [reflexivity|].
  destruct (i =? n_ppi - 1)%Z; reflexivity.
Qed.

Lemma cband_extends (band : string) (correct : bool) (i : nat)
    (refl : list loc) (desc : string) (h : heap) :
  exists t r, apply_cband_correction band correct i refl desc h = ((h ++ t)%list, r).
Proof.
  unfold apply_cband_correction.
  destruct (String.eqb band "C" && correct).
  - unfold bindM, lift, read, alloc, ret.
    destruct (item refl (Z.of_nat i)) as [l|e]; [|exists [], (Err e); now rewrite app_nil_r].
    destruct (deref h l) as [g|e]; [|exists [], (Err e); now rewrite app_nil_r].
    eexists [_], _. reflexivity.
  - exists [], (Ok (refl, desc)). unfold ret. now rewrite app_nil_r.
Qed.

Lemma sweep_body_raises (a : args) (s : sorted_sweeps) (m n20 : num)
    (n_ppi : nat) (st : sweeps) (i : nat) (h : heap) :
  exists t e,
    sweep_body antenna_to_cartesian a s m n20 n_ppi st i h = ((h ++ t)%list, Err e).
Proof.
  unfold sweep_body, bindM, lift.
  destruct (item (s_range s) (Z.of_nat i)) as [rg|e];
    [|exists [], e; now rewrite app_nil_r].
  destruct (item (s_elevation s) (Z.of_nat i)) as [el|e];
    [|exists [], e; now rewrite app_nil_r].
  destruct (item (s_azimuth s) (Z.of_nat i)) as [az|e];
    [|exists [], e; now rewrite app_nil_r].
  destruct (reproject antenna_to_cartesian rg az el) as [xyz|e];
    [|exists [], e; now rewrite app_nil_r].
  destruct (calc_ground_range _ _) as [gr|e];
    [|exists [], e; now rewrite app_nil_r].
  destruct (cband_extends (radar_band a) (correct_cband_refl a) i (reflectivity st)
              (hail_refl_correction_description st) h) as (t & r & ->).
  destruct r as [rd|e]; [|now exists t, e].
  rewrite dz_always_raises. now exists t, IndexError.
Qed.

Lemma preprocess_raises (a : args) (s : sorted_sweeps) (m n20 : num)
    (n_ppi : nat) (h : heap) :
  (0 < n_ppi)%nat ->
  exists t e,
    preprocess antenna_to_cartesian a s m n20 n_ppi h = ((h ++ t)%list, Err e).
Proof.
  intros Hn. unfold preprocess.
  destruct n_ppi as [|k]; [lia|]. simpl. unfold bindM at 1.
  destruct (sweep_body_raises a s m n20 (S k)
              (mkSweeps (s_reflectivity s) [] [] [] [] [] [] [] "" None None) 0 h)
    as (t & e & ->).
  now exists t, e.
Qed.

Lemma check_sweep_count_ok (n : nat) :
  check_sweep_count n = Ok tt -> (10 <= n)%nat.
Proof.
  unfold check_sweep_count.
  destruct (n <=? 1)%nat eqn:E1; [discriminate|].
  destruct (n <? 10)%nat eqn:E2; [discriminate|].
  intros _. apply Nat.ltb_ge in E2. exact E2.
Qed.

Lemma compute_shi_raises (a : args) (h : heap) :
  exists t e,
    compute_shi argsort antenna_to_cartesian a h = ((h ++ t)%list, Err e).
Proof.
  unfold compute_shi, bindM, lift.
  destruct (check_arguments a) as [lv|e]; [|exists [], e; now rewrite app_nil_r].
  destruct (assign_levels lv) as [ml|e]; [|exists [], e; now rewrite app_nil_r].
  destruct (sort_by_fixed_angle argsort a) as [s|e]; [|exists [], e; now rewrite app_nil_r].
  destruct (check_sweep_count _) as [[]|e] eqn:EC; [|exists [], e; now rewrite app_nil_r].
  apply check_sweep_count_ok in EC.
  destruct (preprocess_raises a s (fst ml) (snd ml) (length (s_elevation s)) h)
    as (t & e & ->); [lia|].
  now exists t, e.
Qed.

End Loop.

(** ** Argument checks, levels and sorting *)

Section Normalizer.

Variable argsort : vec -> list nat.
Variable antenna_to_cartesian : grid -> grid -> grid -> result (grid * grid * grid).
Variable safe_log : num -> num * num.

Lemma check_arguments_ok (a : args) (lv : vec) :
  In (radar_band a) ["C"; "S"]%string -> levels a = Some lv ->
  check_arguments a = Ok lv.
Proof.
  intros HB HL. unfold check_arguments. rewrite HL.
  destruct HB as [<-|[<-|[]]]; reflexivity.
Qed.

Lemma assign_levels_nonempty (lv : vec) :
  lv <> [] -> exists ml, assign_levels lv = Ok ml.
Proof.
  destruct lv as [|x t]; [congruence|]. intros _.
  eexists. reflexivity.
Qed.

Lemma sort_by_fixed_angle_ok (a : args) (n : nat) :
  n_sweeps a n ->
  Permutation (argsort (elevation_dataset a)) (seq 0 n) ->
  exists s, sort_by_fixed_angle argsort a = Ok s /\ length (s_elevation s) = n.
Proof.
  intros (HR & HE & HA & HG) HP.
  pose proof (perm_seq_bounds _ _ HP) as HB.
  unfold sort_by_fixed_angle.
  rewrite (take_nth (0%nat : loc) (reflectivity_dataset a)) by (rewrite HR; exact HB).
  rewrite (take_nth NaN (elevation_dataset a)) by (rewrite HE; exact HB).
  rewrite (take_nth ([] : vec) (azimuth_dataset a)) by (rewrite HA; exact HB).
  rewrite (take_nth ([] : vec) (range_dataset a)) by (rewrite HG; exact HB).
  simpl. eexists. split; [reflexivity|]. simpl.
  rewrite length_map. apply Permutation_length in HP.
  rewrite HP. apply length_seq.
Qed.

(** C2.  A call with a valid band, a level pair and at least two but
    fewer than ten sweeps raises [Warning] and returns no field; the
    store is as it was. *)
Theorem few_sweeps_raise (a : args) (h : heap) (n : nat) (lv : vec) :
  In (radar_band a) ["C"; "S"]%string ->
  levels a = Some lv -> lv <> [] ->
  n_sweeps a n ->
  Permutation (argsort (elevation_dataset a)) (seq 0 n) ->
  (2 <= n < 10)%nat ->
  main argsort antenna_to_cartesian safe_log a h =
  (h, Err (PyWarning
     "Number of sweep is less than 10 and not recommended for MESH calculations")).
Proof.
  intros HB HL Hlv Hn HP Hrange.
  unfold main, compute_shi, bindM, lift.
  rewrite (check_arguments_ok a lv HB HL).
  destruct (assign_levels_nonempty lv Hlv) as (ml & ->).
  destruct (sort_by_fixed_angle_ok a n Hn HP) as (s & -> & ->).
  unfold check_sweep_count.
  destruct (n <=? 1)%nat eqn:E1; [apply Nat.leb_le in E1; lia|].
  destruct (n <? 10)%nat eqn:E2; [reflexivity|].
  apply Nat.ltb_ge in E2. lia.
Qed.

End Normalizer.

Lemma stable_argsort_two_sweeps :
  stable_argsort (elevation_dataset two_sweeps) = [0%nat; 1%nat].
Proof.
  unfold stable_argsort. simpl. unfold Rleb. decide_reals. reflexivity.
Qed.

(** C2 (witness): the two sweeps at 0.5 and 1.5 degrees. *)
Lemma few_sweeps_raise_witness :
  main stable_argsort plane_cartesian tolerant_log two_sweeps two_sweeps_heap =
  (two_sweeps_heap, Err (PyWarning
     "Number of sweep is less than 10 and not recommended for MESH calculations")).
Proof.
  apply (few_sweeps_raise stable_argsort plane_cartesian tolerant_log
           two_sweeps two_sweeps_heap 2 [Fin 3000; Fin 5000]).
  - simpl. right. left. reflexivity.
  - reflexivity.
  - discriminate.
  - repeat split.
  - rewrite stable_argsort_two_sweeps. apply Permutation_refl.
  - lia.
Defined.

(** ** The MESH selection (lines 186-209) *)

Section Selection.

Variable argsort : vec -> list nat.
Variable antenna_to_cartesian : grid -> grid -> grid -> result (grid * grid * grid).
Variable safe_log : num -> num * num.

Lemma calc_mesh_unknown (method : string) (shi : grid) :
  ~ In method ["witt1998"; "mh2019_75"; "mh2019_95"]%string ->
  calc_mesh method shi = Err unknown_method.
Proof.
  intros HN. unfold calc_mesh.
  destruct (String.eqb_spec method "witt1998") as [->|_];
    [exfalso; apply HN; simpl; auto|].
  destruct (String.eqb_spec method "mh2019_75") as [->|_];
    [exfalso; apply HN; simpl; auto|].
  destruct (String.eqb_spec method "mh2019_95") as [->|_];
    [exfalso; apply HN; simpl; auto|].
  reflexivity.
Qed.

Lemma calc_mesh_known (method : string) (shi : grid) :
  In method ["witt1998"; "mh2019_75"; "mh2019_95"]%string ->
  exists m, calc_mesh method shi = Ok m.
Proof.
  intros [<-|[<-|[<-|[]]]]; eexists; reflexivity.
Qed.

(** C3 (as amended).  The MESH selection accepts each of the three
    methods and rejects every other one, for every SHI grid.  In a call
    the selection runs after everything up to the SHI grid: a call with
    an unrecognised method raises the invalid-argument error only when
    that whole computation has returned, and raises its error otherwise. *)
Theorem unknown_method_rejected_after_shi (a : args) :
  (In (mesh_method a) ["witt1998"; "mh2019_75"; "mh2019_95"]%string ->
   forall shi, exists m, calc_mesh (mesh_method a) shi = Ok m) /\
  (~ In (mesh_method a) ["witt1998"; "mh2019_75"; "mh2019_95"]%string ->
   (forall shi, calc_mesh (mesh_method a) shi = Err unknown_method) /\
   (forall h,
      main argsort antenna_to_cartesian safe_log a h =
      match compute_shi argsort antenna_to_cartesian a h with
      | (h', Ok _) => (h', Err unknown_method)
      | (h', Err e) => (h', Err e)
      end)).
Proof.
  split; [intros HI shi; now apply calc_mesh_known|].
  intros HN. split; [intros shi; now apply calc_mesh_unknown|].
  intros h. unfold main, bindM.
  destruct (compute_shi argsort antenna_to_cartesian a h) as [h' [r|e]]; [|reflexivity].
  unfold lift, retrieve. now rewrite calc_mesh_unknown.
Qed.

End Selection.

(** C3 (witness): one sweep and the method "nearest". *)
Lemma unknown_method_rejected_after_shi_witness :
  (forall shi, calc_mesh (mesh_method one_sweep_unknown_method) shi = Err unknown_method) /\
  (forall h,
     main stable_argsort plane_cartesian tolerant_log one_sweep_unknown_method h =
     match compute_shi stable_argsort plane_cartesian one_sweep_unknown_method h with
     | (h', Ok _) => (h', Err unknown_method)
     | (h', Err e) => (h', Err e)
     end).
Proof.
  apply (proj2 (unknown_method_rejected_after_shi stable_argsort plane_cartesian
                  tolerant_log one_sweep_unknown_method)).
  simpl. intros [H|[H|[H|[]]]]; discriminate H.
Defined.

(** C3 (counterexample).  A call with an unrecognised method and a single
    sweep does not fail with the invalid-argument error: the sweep count
    is examined first. *)
Lemma unknown_method_not_reported :
  ~ In (mesh_method one_sweep_unknown_method) ["witt1998"; "mh2019_75"; "mh2019_95"]%string /\
  main stable_argsort plane_cartesian tolerant_log one_sweep_unknown_method [uniform 2 2 55] =
  ([uniform 2 2 55], Err (PyException "Require more than one sweep to calculate MESH")).
Proof.
  split.
  - simpl. intros [H|[H|[H|[]]]]; discriminate H.
  - reflexivity.
Qed.

(** C4.  Whatever the sweep index, the number of sweeps and the height
    grid are, the computation of the vertical spacing raises: [z] is the
    two-dimensional height grid of the sweep at hand, and each of the
    three cases indexes it with three indices.  No difference of height
    fields of neighbouring sweeps is ever formed. *)
Theorem calc_dz_raises (z : grid) (i n_ppi : Z) (dz0 : option ndarray) :
  calc_dz z i n_ppi dz0 = Err IndexError /\
  (forall k, getitem (Arr2 z) [Int k; FullSlice; FullSlice] = Err IndexError).
Proof.
  split; [apply dz_always_raises|reflexivity].
Qed.

(** ** What a call depends on *)

Section Dependence.

Variable argsort : vec -> list nat.
Variable antenna_to_cartesian : grid -> grid -> grid -> result (grid * grid * grid).
Variable safe_log : num -> num * num.

(** After the levels are assigned and the sweeps are sorted, a call reads
    its arguments through the sorted sweeps and the scalar settings. *)
Lemma main_congruence (a a' : args) (h : heap) :
  (lv <- check_arguments a ;; assign_levels lv) =
  (lv <- check_arguments a' ;; assign_levels lv) ->
  sort_by_fixed_angle argsort a = sort_by_fixed_angle argsort a' ->
  radar_altitude a = radar_altitude a' ->
  radar_band a = radar_band a' ->
  min_range a = min_range a' ->
  max_range a = max_range a' ->
  mesh_method a = mesh_method a' ->
  correct_cband_refl a = correct_cband_refl a' ->
  main argsort antenna_to_cartesian safe_log a h =
  main argsort antenna_to_cartesian safe_log a' h.
Proof.
  intros HL HS Halt Hband Hmin Hmax Hmeth Hcorr.
  unfold main, compute_shi, bindM, lift.
  rewrite <- HS.
  destruct (check_arguments a) as [lv|e], (check_arguments a') as [lv'|e'];
    simpl in HL.
  - destruct (assign_levels lv) as [ml|e1], (assign_levels lv') as [ml'|e1'];
      try discriminate HL; [|congruence].
    injection HL as <-.
    destruct (sort_by_fixed_angle argsort a) as [s|e]; [|reflexivity].
    destruct (check_sweep_count _) as [[]|e]; [|reflexivity].
    assert (preprocess antenna_to_cartesian a s (fst ml) (snd ml) (length (s_elevation s)) =
            preprocess antenna_to_cartesian a' s (fst ml) (snd ml) (length (s_elevation s)))
      as ->.
    { destruct a, a'; simpl in *; subst. reflexivity. }
    destruct (preprocess _ _ _ _ _ _ h) as [h1 [st|e]]; [|reflexivity].
    destruct (column_integration s st _) as [shi|e]; [|reflexivity].
    unfold ret, retrieve. rewrite Hmeth. reflexivity.
  - destruct (assign_levels lv); [discriminate HL|congruence].
  - destruct (assign_levels lv'); [discriminate HL|congruence].
  - congruence.
Qed.

(** C6.  A two-element level list gives the melt layer its minimum and
    the minus-20 layer its maximum; the order of the two elements changes
    neither the assignment nor anything a call returns or writes. *)
Theorem levels_order_irrelevant (a : args) (x y : num) :
  assign_levels [x; y] = Ok (nmin x y, nmax x y) /\
  assign_levels [y; x] = assign_levels [x; y] /\
  (forall h,
     main argsort antenna_to_cartesian safe_log (with_levels a [y; x]) h =
     main argsort antenna_to_cartesian safe_log (with_levels a [x; y]) h).
Proof.
  assert (HC : assign_levels [y; x] = assign_levels [x; y]).
  { unfold assign_levels. simpl.
    destruct x as [|x], y as [|y]; simpl; try reflexivity.
    now rewrite (Rmin_comm y x), (Rmax_comm y x). }
  split; [reflexivity|]. split; [exact HC|].
  intros h. apply main_congruence; try reflexivity.
  unfold check_arguments, with_levels; simpl.
  destruct (negb _); [reflexivity|]. simpl. exact HC.
Qed.

End Dependence.

(** ** Sorting by elevation (lines 75-81) *)

Lemma sort_le_trans (a b c : num) : sort_le a b -> sort_le b c -> sort_le a c.
Proof.
  destruct a, b, c; simpl; try tauto. lra.
Qed.

Lemma sort_le_antisym (a b : num) : sort_le a b -> sort_le b a -> a = b.
Proof.
  destruct a, b; simpl; try tauto. intros. f_equal. lra.
Qed.

Lemma map_nth_seq {A : Type} (d : A) (l : list A) :
  map (fun i => nth i l d) (seq 0 (length l)) = l.
Proof.
  induction l as [|x l IH]; [reflexivity|].
  simpl. rewrite <- seq_shift, map_map. simpl. now rewrite IH.
Qed.

Lemma select_permutation {A : Type} (d : A) (l : list A) (idx : list nat) :
  Permutation idx (seq 0 (length l)) ->
  Permutation (map (fun i => nth i l d) idx) l.
Proof.
  intros HP.
  eapply Permutation_trans; [apply Permutation_map, HP|].
  now rewrite map_nth_seq.
Qed.

Lemma combine_projections {A B : Type} (l : list (A * B)) :
  combine (map fst l) (map snd l) = l.
Proof.
  induction l as [|[a b] l IH]; [reflexivity|]. simpl. now rewrite IH.
Qed.

Lemma sorted_rows_unzip (rs : list (loc * num * vec * vec)) :
  sorted_rows (unzip_rows rs) = rs.
Proof.
  unfold sorted_rows, unzip_rows, row_key. simpl.
  induction rs as [|[[[r e] az] rg] rs IH]; [reflexivity|].
  simpl. now rewrite IH.
Qed.

Lemma nth_sweep_rows (a : args) (n i : nat) :
  n_sweeps a n ->
  nth i (sweep_rows a) (0%nat, NaN, [], []) =
  (nth i (reflectivity_dataset a) 0%nat, nth i (elevation_dataset a) NaN,
   nth i (azimuth_dataset a) [], nth i (range_dataset a) []).
Proof.
  intros (HR & HE & HA & HG). unfold sweep_rows.
  rewrite combine_nth by (rewrite !length_combine; lia).
  rewrite combine_nth by (rewrite !length_combine; lia).
  rewrite combine_nth by lia. reflexivity.
Qed.

Lemma length_sweep_rows (a : args) (n : nat) :
  n_sweeps a n -> length (sweep_rows a) = n.
Proof.
  intros (HR & HE & HA & HG). unfold sweep_rows.
  rewrite !length_combine. lia.
Qed.

Lemma map_row_key_sweep_rows (a : args) (n : nat) :
  n_sweeps a n -> map row_key (sweep_rows a) = elevation_dataset a.
Proof.
  intros Hn. apply (nth_ext _ _ NaN NaN).
  - rewrite length_map, (length_sweep_rows a n Hn). destruct Hn as (_ & HE & _). now rewrite HE.
  - intros i _. change NaN with (row_key (0%nat, NaN, [], [])) at 1.
    rewrite map_nth, (nth_sweep_rows a n i Hn). reflexivity.
Qed.

Section Sorting.

Variable argsort : vec -> list nat.

(** The sorted sweep set is the sweep tuples selected by the index list. *)
Lemma sort_by_rows (a : args) (n : nat) :
  n_sweeps a n ->
  Permutation (argsort (elevation_dataset a)) (seq 0 n) ->
  sort_by_fixed_angle argsort a =
  Ok (unzip_rows (map (fun i => nth i (sweep_rows a) (0%nat, NaN, [], []))
                    (argsort (elevation_dataset a)))).
Proof.
  intros Hn HP. pose proof (perm_seq_bounds _ _ HP) as HB.
  pose proof Hn as (HR & HE & HA & HG).
  unfold sort_by_fixed_angle.
  rewrite (take_nth (0%nat : loc) (reflectivity_dataset a)) by (rewrite HR; exact HB).
  rewrite (take_nth NaN (elevation_dataset a)) by (rewrite HE; exact HB).
  rewrite (take_nth ([] : vec) (azimuth_dataset a)) by (rewrite HA; exact HB).
  rewrite (take_nth ([] : vec) (range_dataset a)) by (rewrite HG; exact HB).
  simpl. unfold unzip_rows, row_key. rewrite !map_map.
  f_equal. f_equal; apply map_ext; intros i; now rewrite (nth_sweep_rows a n i Hn).
Qed.

Lemma key_injective (l : list (loc * num * vec * vec)) (x y : loc * num * vec * vec) :
  NoDup (map row_key l) -> In x l -> In y l -> row_key x = row_key y -> x = y.
Proof.
  induction l as [|t l IH]; simpl; [tauto|].
  intros HN [->|Hx] [->|Hy] Hk; inversion HN as [|? ? Hnotin HN']; subst.
  - reflexivity.
  - exfalso. apply Hnotin. rewrite Hk. apply list_elem_of_In, in_map, Hy.
  - exfalso. apply Hnotin. rewrite <- Hk. apply list_elem_of_In, in_map, Hx.
  - now apply IH.
Qed.

Lemma strongly_sorted_by_key (l : list (loc * num * vec * vec)) :
  Sorted sort_le (map row_key l) ->
  StronglySorted (fun t1 t2 => sort_le (row_key t1) (row_key t2)) l.
Proof.
  intros HS. apply Sorted.Sorted_StronglySorted in HS;
    [|intros x y z; apply sort_le_trans].
  induction l as [|t l IH]; [constructor|].
  simpl in HS. apply StronglySorted_inv in HS. destruct HS as [HS' HF].
  constructor; [now apply IH|].
  apply (proj1 (List.Forall_map row_key (sort_le (row_key t)) l)) in HF. exact HF.
Qed.

Lemma sorted_selection_unique (rows rows' rs rs' : list (loc * num * vec * vec)) :
  Permutation rows' rows -> NoDup (map row_key rows) ->
  Permutation rs rows -> Permutation rs' rows' ->
  Sorted sort_le (map row_key rs) -> Sorted sort_le (map row_key rs') ->
  rs' = rs.
Proof.
  intros HPr HN HP HP' HS HS'.
  apply (StronglySorted_unique_strong
           (fun t1 t2 => sort_le (row_key t1) (row_key t2)));
    [|now apply strongly_sorted_by_key..|].
  - intros x1 x2 H1 H2 H12 H21.
    apply (key_injective rows); [exact HN| | |now apply sort_le_antisym].
    + apply list_elem_of_In in H1. eapply Permutation_in; [|exact H1].
      now rewrite HP'.
    + apply list_elem_of_In in H2. eapply Permutation_in; [exact HP|exact H2].
  - now rewrite HP', HP.
Qed.

End Sorting.

Section SortInvariance.

Variable argsort : vec -> list nat.
Variable antenna_to_cartesian : grid -> grid -> grid -> result (grid * grid * grid).
Variable safe_log : num -> num * num.

Lemma selected_keys (a : args) (n : nat) (idx : list nat) :
  n_sweeps a n ->
  map row_key (map (fun i => nth i (sweep_rows a) (0%nat, NaN, [], [])) idx) =
  map (fun i => nth i (elevation_dataset a) NaN) idx.
Proof.
  intros Hn. rewrite map_map. apply map_ext. intros i.
  now rewrite (nth_sweep_rows a n i Hn).
Qed.

Lemma sort_by_fixed_angle_sorts (a : args) (n : nat) :
  n_sweeps a n ->
  is_argsort (elevation_dataset a) (argsort (elevation_dataset a)) ->
  exists rs,
    sort_by_fixed_angle argsort a = Ok (unzip_rows rs) /\
    Permutation rs (sweep_rows a) /\
    Sorted sort_le (map row_key rs).
Proof.
  intros Hn [HP HS].
  assert (HE : length (elevation_dataset a) = n) by apply Hn.
  rewrite HE in HP.
  exists (map (fun i => nth i (sweep_rows a) (0%nat, NaN, [], []))
            (argsort (elevation_dataset a))).
  split; [now apply (sort_by_rows argsort a n)|]. split.
  - apply select_permutation. now rewrite (length_sweep_rows a n Hn).
  - now rewrite (selected_keys a n).
Qed.

(** C5 (as amended).  The four per-sweep sequences are reordered by one
    index list into ascending elevation.  When the elevation angles are
    pairwise distinct, two calls that supply the same sweeps in different
    orders sort them into the same sweep set, and so return and write
    the same. *)
Theorem sorted_sweeps_independent_of_order (a a' : args) (n : nat) :
  n_sweeps a n -> n_sweeps a' n ->
  Permutation (sweep_rows a') (sweep_rows a) ->
  same_settings a a' ->
  NoDup (elevation_dataset a) ->
  is_argsort (elevation_dataset a) (argsort (elevation_dataset a)) ->
  is_argsort (elevation_dataset a') (argsort (elevation_dataset a')) ->
  (exists s,
     sort_by_fixed_angle argsort a = Ok s /\
     Permutation (sorted_rows s) (sweep_rows a) /\
     Sorted sort_le (s_elevation s)) /\
  sort_by_fixed_angle argsort a' = sort_by_fixed_angle argsort a /\
  (forall h,
     main argsort antenna_to_cartesian safe_log a' h =
     main argsort antenna_to_cartesian safe_log a h).
Proof.
  intros Hn Hn' HPr (Halt & Hlv & Hband & Hmin & Hmax & Hmeth & Hcorr) HND Harg Harg'.
  destruct (sort_by_fixed_angle_sorts a n Hn Harg) as (rs & Hs & HP & HS).
  destruct (sort_by_fixed_angle_sorts a' n Hn' Harg') as (rs' & Hs' & HP' & HS').
  assert (Heq : rs' = rs).
  { apply (sorted_selection_unique (sweep_rows a) (sweep_rows a')); try assumption.
    now rewrite (map_row_key_sweep_rows a n Hn). }
  assert (Hsort : sort_by_fixed_angle argsort a' = sort_by_fixed_angle argsort a)
    by (rewrite Hs, Hs', Heq; reflexivity).
  split; [|split; [exact Hsort|]].
  - exists (unzip_rows rs). split; [exact Hs|]. split.
    + now rewrite sorted_rows_unzip.
    + exact HS.
  - intros h. apply main_congruence; try congruence.
    unfold check_arguments. now rewrite <- Hband, <- Hlv.
Qed.

End SortInvariance.

Lemma stable_argsort_two_sweeps_swapped :
  stable_argsort (elevation_dataset two_sweeps_swapped) = [1%nat; 0%nat].
Proof.
  unfold stable_argsort. simpl. unfold Rleb. decide_reals. reflexivity.
Qed.

(** C5 (witness): the two sweeps at 0.5 and 1.5 degrees, supplied lowest
    first and highest first. *)
Lemma sorted_sweeps_independent_of_order_witness :
  (exists s,
     sort_by_fixed_angle stable_argsort two_sweeps = Ok s /\
     Permutation (sorted_rows s) (sweep_rows two_sweeps) /\
     Sorted sort_le (s_elevation s)) /\
  sort_by_fixed_angle stable_argsort two_sweeps_swapped =
  sort_by_fixed_angle stable_argsort two_sweeps /\
  (forall h,
     main stable_argsort plane_cartesian tolerant_log two_sweeps_swapped h =
     main stable_argsort plane_cartesian tolerant_log two_sweeps h).
Proof.
  apply (sorted_sweeps_independent_of_order stable_argsort plane_cartesian tolerant_log
           two_sweeps two_sweeps_swapped 2).
  - repeat split.
  - repeat split.
  - apply perm_swap.
  - repeat split.
  - simpl. apply NoDup_cons_2; [|apply NoDup_singleton].
    intros H. apply list_elem_of_In in H. destruct H as [H|[]].
    injection H. lra.
  - split.
    + rewrite stable_argsort_two_sweeps. apply Permutation_refl.
    + rewrite stable_argsort_two_sweeps. simpl.
      sorted_reals.
  - split.
    + rewrite stable_argsort_two_sweeps_swapped. apply perm_swap.
    + rewrite stable_argsort_two_sweeps_swapped. simpl.
      sorted_reals.
Defined.

Lemma stable_argsort_tied_sweeps : stable_argsort tied_elevations = seq 0 10.
Proof.
  unfold stable_argsort, tied_elevations. sort_reals. reflexivity.
Qed.

(** C5 (counterexample).  Ten sweeps of which the two lowest share the
    elevation angle 0.5, one of two rays and one of three.  Both orders
    of supplying the two are ascending, each is a rearrangement of the
    other, and the sort keeps each as it is.  The call that has the
    sweep of two rays first gets as far as line 118 and raises
    IndexError there; the call that has the sweep of three rays first
    raises ValueError in the coordinate transform, whose grids do not
    combine.  The two calls end differently. *)
Lemma tied_sweeps_give_different_results :
  Permutation (sweep_rows tied_sweeps_swapped) (sweep_rows tied_sweeps) /\
  same_settings tied_sweeps tied_sweeps_swapped /\
  is_argsort (elevation_dataset tied_sweeps)
    (stable_argsort (elevation_dataset tied_sweeps)) /\
  is_argsort (elevation_dataset tied_sweeps_swapped)
    (stable_argsort (elevation_dataset tied_sweeps_swapped)) /\
  main stable_argsort plane_cartesian tolerant_log tied_sweeps tied_sweeps_heap =
    (tied_sweeps_heap, Err IndexError) /\
  main stable_argsort plane_cartesian tolerant_log tied_sweeps_swapped tied_sweeps_heap =
    (tied_sweeps_heap, Err broadcast_error).
Proof.
  split; [apply perm_swap|]. split; [repeat split|].
  assert (HS : is_argsort tied_elevations (stable_argsort tied_elevations)).
  { rewrite stable_argsort_tied_sweeps. split; [apply Permutation_refl|].
    unfold tied_elevations. simpl. sorted_reals. }
  split; [exact HS|]. split; [exact HS|]. split.
  - unfold main, compute_shi, bindM, lift, sort_by_fixed_angle.
    simpl elevation_dataset. rewrite stable_argsort_tied_sweeps. reflexivity.
  - unfold main, compute_shi, bindM, lift, sort_by_fixed_angle.
    simpl elevation_dataset. rewrite stable_argsort_tied_sweeps. reflexivity.
Qed.

(** ** The MESH power laws (lines 186-205) *)

Lemma mesh_value_positive (c e s : R) :
  0 < s -> mesh_value c e (Fin s) = Fin (c * Rpower s e).
Proof.
  intros Hs. unfold mesh_value, npow. simpl.
  destruct (Rlt_dec 0 s); [reflexivity|lra].
Qed.

Lemma mesh_value_zero (c e : R) :
  0 < e -> mesh_value c e (Fin 0) = Fin (c * 0).
Proof.
  intros He. unfold mesh_value, npow. simpl.
  destruct (Rlt_dec 0 0); [lra|].
  destruct (Req_dec_T 0 0); [|lra].
  destruct (Rlt_dec 0 e); [reflexivity|lra].
Qed.

Lemma mesh_value_increasing (c e s1 s2 : R) :
  0 < c -> 0 < e -> 0 <= s1 < s2 ->
  exists v1 v2,
    mesh_value c e (Fin s1) = Fin v1 /\ mesh_value c e (Fin s2) = Fin v2 /\ v1 < v2.
Proof.
  intros Hc He [H1 H12].
  assert (Hpos : 0 < Rpower s2 e) by apply exp_pos.
  destruct H1 as [H1|<-].
  - exists (c * Rpower s1 e), (c * Rpower s2 e).
    rewrite !mesh_value_positive by lra. repeat split.
    apply Rmult_lt_compat_l; [exact Hc|].
    apply Rlt_Rpower_l; lra.
  - exists (c * 0), (c * Rpower s2 e).
    rewrite mesh_value_zero by exact He.
    rewrite mesh_value_positive by lra. repeat split.
    apply Rmult_lt_compat_l; lra.
Qed.

Lemma rpower_100_half : Rpower 100 0.5 = 10.
Proof.
  replace 0.5 with (/ 2) by lra.
  rewrite Rpower_sqrt by lra.
  replace 100 with (10 * 10) by lra.
  apply sqrt_square. lra.
Qed.

(** C7.  For each of the three methods the MESH grid is the SHI grid with
    the method's power law applied to every cell: 2.54 SHI^0.5, 15.096
    SHI^0.206 and 22.157 SHI^0.212, which on a positive SHI is the
    coefficient times the real power.  SHI = 100 under witt1998 gives
    25.4, and under each law a larger SHI gives a larger MESH. *)
Theorem mesh_power_law (shi : grid) :
  (exists d c, calc_mesh "witt1998" shi = Ok (grid_map (mesh_value 2.54 0.5) shi, d, c)) /\
  (exists d c, calc_mesh "mh2019_75" shi = Ok (grid_map (mesh_value 15.096 0.206) shi, d, c)) /\
  (exists d c, calc_mesh "mh2019_95" shi = Ok (grid_map (mesh_value 22.157 0.212) shi, d, c)) /\
  (forall c e s, 0 < s -> mesh_value c e (Fin s) = Fin (c * Rpower s e)) /\
  mesh_value 2.54 0.5 (Fin 100) = Fin 25.4 /\
  (forall c e, In (c, e) [(2.54, 0.5); (15.096, 0.206); (22.157, 0.212)] ->
   forall s1 s2, 0 <= s1 < s2 ->
   exists v1 v2,
     mesh_value c e (Fin s1) = Fin v1 /\ mesh_value c e (Fin s2) = Fin v2 /\ v1 < v2).
Proof.
  split; [eexists _, _; reflexivity|].
  split; [eexists _, _; reflexivity|].
  split; [eexists _, _; reflexivity|].
  split; [intros c e s; apply mesh_value_positive|].
  split.
  - rewrite mesh_value_positive by lra. rewrite rpower_100_half. f_equal. lra.
  - intros c e Hin s1 s2 Hs.
    destruct Hin as [H|[H|[H|[]]]]; injection H as <- <-;
      apply mesh_value_increasing; lra.
Qed.

(** C7 (witness): SHI 100 and 400 under witt1998. *)
Lemma mesh_power_law_witness :
  exists v1 v2,
    mesh_value 2.54 0.5 (Fin 100) = Fin v1 /\
    mesh_value 2.54 0.5 (Fin 400) = Fin v2 /\ v1 < v2.
Proof.
  apply (proj2 (proj2 (proj2 (proj2 (proj2 (mesh_power_law [])))))
           2.54 0.5 (or_introl eq_refl) 100 400).
  lra.
Defined.

(** ** Broadcasting of two arrays of one shape *)

Lemma traverse_combine {A B C : Type} (f : A -> B -> C) (la : list A) (lb : list B) :
  traverse (fun p : A * B => Ok (f (fst p) (snd p))) (combine la lb) =
  Ok (zip_with f la lb).
Proof.
  revert lb. induction la as [|a la IH]; intros [|b lb]; try reflexivity.
  simpl. now rewrite IH.
Qed.

Lemma bzip_same_length {A B C : Type} (f : A -> B -> C) (la : list A) (lb : list B) :
  length la = length lb ->
  bzip (fun a b => Ok (f a b)) la lb = Ok (zip_with f la lb).
Proof.
  intros HL. unfold bzip. rewrite HL, Nat.eqb_refl. apply traverse_combine.
Qed.

Lemma grid_zip_same_shape {A B C : Type} (f : A -> B -> C) (rows cols : nat)
    (g1 : list (list A)) (g2 : list (list B)) :
  has_shape rows cols g1 -> has_shape rows cols g2 ->
  grid_zip f g1 g2 = Ok (zip_with (zip_with f) g1 g2) /\
  has_shape rows cols (zip_with (zip_with f) g1 g2).
Proof.
  intros [HL1 HF1] [HL2 HF2]. unfold grid_zip, has_shape. unfold bzip at 1.
  rewrite HL1, HL2, Nat.eqb_refl. subst rows.
  revert g2 HL2 HF2.
  induction HF1 as [|r1 g1 Hr1 HF1 IH]; intros [|r2 g2] HL2 HF2;
    try discriminate HL2.
  - split; [reflexivity|]. split; [reflexivity|constructor].
  - injection HL2 as HL2. apply Forall_cons in HF2. destruct HF2 as [Hr2 HF2].
    destruct (IH g2 HL2 HF2) as (IH1 & IHL & IHF).
    simpl. rewrite bzip_same_length by congruence. simpl.
    rewrite IH1. simpl. split; [reflexivity|]. split.
    + now rewrite IHL.
    + constructor; [|exact IHF].
      rewrite length_zip_with. lia.
Qed.

Lemma has_shape_map {A B : Type} (f : A -> B) (rows cols : nat) (g : list (list A)) :
  has_shape rows cols g -> has_shape rows cols (grid_map f g).
Proof.
  intros [HL HF]. unfold grid_map. split; [now rewrite length_map|].
  apply Forall_map. eapply Forall_impl; [exact HF|].
  intros r Hr. simpl. now rewrite length_map.
Qed.

Lemma cell_map {A B : Type} (f : A -> B) (g : list (list A)) (a r : nat) :
  cell (grid_map f g) a r = option_map f (cell g a r).
Proof.
  unfold cell, grid_map. rewrite list_lookup_fmap.
  destruct (g !! a) as [row|]; [|reflexivity]. simpl.
  rewrite list_lookup_fmap. now destruct (row !! r).
Qed.

Lemma cell_zip_with {A B C : Type} (f : A -> B -> C) (g1 : list (list A))
    (g2 : list (list B)) (a r : nat) (x : A) (y : B) :
  cell g1 a r = Some x -> cell g2 a r = Some y ->
  cell (zip_with (zip_with f) g1 g2) a r = Some (f x y).
Proof.
  unfold cell. intros H1 H2.
  destruct (g1 !! a) as [r1|] eqn:E1; [|discriminate].
  destruct (g2 !! a) as [r2|] eqn:E2; [|discriminate].
  rewrite lookup_zip_with, E1. simpl. rewrite E2. simpl.
  rewrite lookup_zip_with, H1. simpl. rewrite H2. reflexivity.
Qed.

(** ** Masked assignment and broadcasting on arrays of one shape *)

Lemma row_setmask_map {A B : Type} (f : B -> A) (p : B -> bool) (v : A) (r : list B) :
  row_setmask (map f r) (map p r) v = Ok (map (fun x => if p x then v else f x) r).
Proof.
  unfold row_setmask. rewrite !length_map, Nat.eqb_refl. f_equal.
  induction r as [|x r IH]; [reflexivity|]. simpl. now rewrite IH.
Qed.

Lemma grid_setmask_map {A B : Type} (f : B -> A) (p : B -> bool) (v : A)
    (g : list (list B)) :
  grid_setmask (grid_map f g) (grid_map p g) v =
  Ok (grid_map (fun x => if p x then v else f x) g).
Proof.
  unfold grid_setmask, grid_map. rewrite !length_map, Nat.eqb_refl.
  induction g as [|r g IH]; [reflexivity|].
  simpl. rewrite row_setmask_map. simpl. now rewrite IH.
Qed.

Lemma grid_map_id {A : Type} (g : list (list A)) : grid_map (fun x => x) g = g.
Proof.
  unfold grid_map. induction g as [|r g IH]; [reflexivity|].
  simpl. now rewrite map_id, IH.
Qed.

Lemma grid_map_map {A B C : Type} (f : A -> B) (h : B -> C) (g : list (list A)) :
  grid_map h (grid_map f g) = grid_map (fun x => h (f x)) g.
Proof.
  unfold grid_map. rewrite map_map. apply map_ext. intros r. apply map_map.
Qed.

Lemma grid_setmask_self {A : Type} (p : A -> bool) (v : A) (g : list (list A)) :
  grid_setmask g (grid_map p g) v = Ok (grid_map (fun x => if p x then v else x) g).
Proof.
  rewrite <- (grid_map_id g) at 1. apply grid_setmask_map.
Qed.

(** ** POSH (lines 211-218) *)

Lemma clip_percent_cases (v : num) :
  (v = NaN /\ clip_percent v = NaN) \/
  (v <> NaN /\ in_percent_range (clip_percent v)).
Proof.
  destruct v as [|x]; [left; split; reflexivity|].
  right. split; [discriminate|].
  unfold clip_percent, in_percent_range, ngtb, nltb, ncmp, Rltb.
  destruct (Rlt_dec x 0).
  - destruct (Rlt_dec 100 0); [lra|]. exists 0. split; [reflexivity|lra].
  - destruct (Rlt_dec 100 x).
    + exists 100. split; [reflexivity|lra].
    + exists x. split; [reflexivity|lra].
Qed.

Section Posh.

Variable safe_log : num -> num * num.

Lemma calc_posh_total (shi : grid) (meltlayer : num) :
  calc_posh safe_log shi meltlayer =
  Ok (grid_map
        (fun s => clip_percent (posh_value safe_log (warning_threshold meltlayer) s))
        shi).
Proof.
  unfold calc_posh. rewrite grid_setmask_self. simpl.
  rewrite grid_setmask_self, !grid_map_map. reflexivity.
Qed.

Lemma clip_percent_real (v : R) :
  exists p, clip_percent (Fin v) = Fin p /\ 0 <= p <= 100 /\
            (v < 0 -> p = 0) /\ (0 <= v <= 100 -> p = v) /\ (100 < v -> p = 100).
Proof.
  unfold clip_percent, ngtb, nltb, ncmp, Rltb.
  destruct (Rlt_dec v 0).
  - destruct (Rlt_dec 100 0); [lra|]. exists 0. repeat split; lra.
  - destruct (Rlt_dec 100 v).
    + exists 100. repeat split; lra.
    + exists v. repeat split; lra.
Qed.

(** C8.  With a safe logarithm that returns, for every input, a value
    with a real component, the POSH stage returns for every SHI grid and
    every melt layer, a zero SHI and a negative threshold included.  The
    threshold is 57.5 times the melt layer height in kilometres, minus
    121.  The POSH grid has the shape of the SHI grid, and each of its
    cells is the real part of 29 times the safe logarithm of SHI over
    the threshold, plus 50, clipped to [0, 100]: it is a number of
    [0, 100]. *)
Theorem posh_lies_in_percent_range (shi : grid) (meltlayer : num) :
  returns_numbers safe_log ->
  (forall m, warning_threshold (Fin m) = Fin (57.5 * (m / 1000) - 121)) /\
  exists posh,
    calc_posh safe_log shi meltlayer = Ok posh /\
    (forall rows cols, has_shape rows cols shi -> has_shape rows cols posh) /\
    (forall a r s, cell shi a r = Some s ->
       exists re im p,
         safe_log (ndiv s (warning_threshold meltlayer)) = (Fin re, Fin im) /\
         cell posh a r = Some (Fin p) /\ 0 <= p <= 100 /\
         (29 * re + 50 < 0 -> p = 0) /\
         (0 <= 29 * re + 50 <= 100 -> p = 29 * re + 50) /\
         (100 < 29 * re + 50 -> p = 100)).
Proof.
  intros Hlog. split.
  - intros m. unfold warning_threshold, ndiv. simpl.
    destruct (Req_dec_T 1000 0); [lra|reflexivity].
  - eexists. split; [apply calc_posh_total|]. split.
    + intros rows cols. apply has_shape_map.
    + intros a r s Hs. rewrite cell_map, Hs. simpl.
      destruct (Hlog (ndiv s (warning_threshold meltlayer))) as (re & im & E).
      exists re, im. unfold posh_value. rewrite E.
      destruct (clip_percent_real (29 * re - 0 * im + 50)) as (p & Hp & Hr & H1 & H2 & H3).
      exists p. split; [reflexivity|]. split.
      { f_equal. exact Hp. }
      replace (29 * re + 50) with (29 * re - 0 * im + 50) by lra.
      repeat split; tauto.
Qed.

End Posh.

Lemma tolerant_log_returns_numbers : returns_numbers tolerant_log.
Proof.
  intros [|r]; [eexists _, _; reflexivity|].
  unfold tolerant_log. destruct (Rlt_dec 0 r); eexists _, _; reflexivity.
Qed.

(** C8 (witness): a missing, a zero, a small and a large SHI over a melt
    layer at 1000 m, where the threshold is negative, with the
    logarithm that returns -10 for what has no logarithm. *)
Lemma posh_lies_in_percent_range_witness :
  (forall m, warning_threshold (Fin m) = Fin (57.5 * (m / 1000) - 121)) /\
  exists posh,
    calc_posh tolerant_log [[NaN; Fin 0]; [Fin 51.5; Fin 5000]] (Fin 1000) = Ok posh /\
    (forall rows cols,
       has_shape rows cols [[NaN; Fin 0]; [Fin 51.5; Fin 5000]] ->
       has_shape rows cols posh) /\
    (forall a r s, cell [[NaN; Fin 0]; [Fin 51.5; Fin 5000]] a r = Some s ->
       exists re im p,
         tolerant_log (ndiv s (warning_threshold (Fin 1000))) = (Fin re, Fin im) /\
         cell posh a r = Some (Fin p) /\ 0 <= p <= 100 /\
         (29 * re + 50 < 0 -> p = 0) /\
         (0 <= 29 * re + 50 <= 100 -> p = 29 * re + 50) /\
         (100 < 29 * re + 50 -> p = 100)).
Proof.
  apply (posh_lies_in_percent_range tolerant_log
           [[NaN; Fin 0]; [Fin 51.5; Fin 5000]] (Fin 1000)).
  apply tolerant_log_returns_numbers.
Defined.

(** ** The validity mask (lines 110-111 and 145-151) *)

Lemma valid_condition (w k g mn mx : R) :
  ngtb (Fin w) (Fin 0) && ngtb (Fin k) (Fin 0) &&
  ngtb (Fin g) (nmul (Fin mn) (Fin 1000)) &&
  nltb (Fin g) (nmul (Fin mx) (Fin 1000)) = true <->
  0 < w /\ 0 < k /\ mn * 1000 < g < mx * 1000.
Proof.
  unfold ngtb, nltb, ncmp, Rltb. simpl.
  destruct (Rlt_dec 0 w), (Rlt_dec 0 k), (Rlt_dec (mn * 1000) g),
    (Rlt_dec g (mx * 1000)); simpl; split; intros H; try discriminate H;
    try reflexivity; lra.
Qed.


Section NoMask.

Variable antenna_to_cartesian : grid -> grid -> grid -> result (grid * grid * grid).

Lemma sweep_body_stops_at_line_118 (a : args) (s : sorted_sweeps) (m n20 : num)
    (n_ppi : nat) (st : sweeps) (i : nat) (h : heap) (rg az : vec) (el : num)
    (x y z gr : grid) :
  s_range s !! i = Some rg -> s_elevation s !! i = Some el ->
  s_azimuth s !! i = Some az ->
  reproject antenna_to_cartesian rg az el = Ok (x, y, z) ->
  calc_ground_range (x_dataset st ++ [x])%list (y_dataset st ++ [y])%list = Ok gr ->
  String.eqb (radar_band a) "C" && correct_cband_refl a = false ->
  sweep_body antenna_to_cartesian a s m n20 n_ppi st i h = (h, Err IndexError).
Proof.
  intros Hrg Hel Haz Hre Hgr Hband.
  unfold sweep_body, bindM, lift.
  rewrite !item_of_nat, Hrg, Hel, Haz, Hre. cbn [fst snd].
  rewrite Hgr. unfold apply_cband_correction. rewrite Hband. unfold ret.
  rewrite dz_always_raises. reflexivity.
Qed.

(** C9.  No validity mask is ever formed.  The ground range of line 111
    is taken from the first entries of the coordinate lists, which are
    the lowest sweep's, whatever the other entries are.  But an
    iteration of the sweep loop that has its coordinates and its ground
    range raises IndexError at line 118, before the weights, the energy
    and the mask of lines 146-151; so no iteration, of whatever sweep
    and in whatever state, returns, and the loop over one sweep or more
    raises. *)
Theorem validity_mask_is_never_formed :
  (forall xs ys x0 y0,
     calc_ground_range (x0 :: xs) (y0 :: ys) = calc_ground_range [x0] [y0]) /\
  (forall a s m n20 n_ppi st i h rg az el x y z gr,
     s_range s !! i = Some rg -> s_elevation s !! i = Some el ->
     s_azimuth s !! i = Some az ->
     reproject antenna_to_cartesian rg az el = Ok (x, y, z) ->
     calc_ground_range (x_dataset st ++ [x])%list (y_dataset st ++ [y])%list = Ok gr ->
     String.eqb (radar_band a) "C" && correct_cband_refl a = false ->
     sweep_body antenna_to_cartesian a s m n20 n_ppi st i h = (h, Err IndexError)) /\
  (forall a s m n20 n_ppi st i h,
     exists t e,
       sweep_body antenna_to_cartesian a s m n20 n_ppi st i h = ((h ++ t)%list, Err e)) /\
  (forall a s m n20 n_ppi h,
     exists t e,
       preprocess antenna_to_cartesian a s m n20 (S n_ppi) h = ((h ++ t)%list, Err e)).
Proof.
  split; [reflexivity|]. split; [|split].
  - intros a s m n20 n_ppi st i h rg az el x y z gr.
    apply sweep_body_stops_at_line_118.
  - intros a s m n20 n_ppi st i h. apply sweep_body_raises.
  - intros a s m n20 n_ppi h. apply preprocess_raises. lia.
Qed.

End NoMask.

(** C9 (failing input): the first iteration over ten sweeps of band S
    with a reflectivity of 150 dBZ: it stops at line 118 and leaves no
    mask. *)
Lemma validity_mask_is_never_formed_witness :
  sweep_body plane_cartesian loud_sweeps loud_sorted (Fin 3000) (Fin 5000) 10
    (first_state loud_sorted) 0 loud_heap = (loud_heap, Err IndexError).
Proof.
  eapply (proj1 (proj2 (validity_mask_is_never_formed plane_cartesian))
            loud_sweeps loud_sorted (Fin 3000) (Fin 5000) 10%nat
            (first_state loud_sorted) 0%nat loud_heap
            [Fin 1000; Fin 2000] [Fin 0; Fin 90] (Fin 0.5)); reflexivity.
Defined.

(** ** Who owns the reflectivity arrays (lines 112-114 and 130-132) *)

Lemma clip_twice (g : grid) :
  grid_map (fun v => if nltb v (Fin (-100)) then Fin (-100) else v)
    (grid_map (fun v => if ngtb v (Fin 100) then Fin 100 else v) g) =
  grid_map clip_dbz g.
Proof. now rewrite grid_map_map. Qed.

Lemma clip_reflectivity_at (refl : list loc) (i : nat) (h : heap) (l : loc) (g : grid) :
  refl !! i = Some l -> h !! l = Some g ->
  clip_reflectivity refl i h = (<[l := grid_map clip_dbz g]> h, Ok tt).
Proof.
  intros Hl Hg.
  assert (Hlt : (l < length h)%nat) by (eapply lookup_lt_Some; exact Hg).
  unfold clip_reflectivity, bindM, lift, read, write, deref.
  rewrite item_of_nat, Hl, Hg, grid_setmask_self.
  rewrite list_lookup_insert_eq by exact Hlt.
  rewrite grid_setmask_self, clip_twice, list_insert_insert_eq.
  reflexivity.
Qed.

Lemma stable_argsort_ten_sweeps : stable_argsort ten_elevations = seq 0 10.
Proof.
  unfold stable_argsort, ten_elevations. sort_reals. reflexivity.
Qed.

Lemma firstn_app_length {A : Type} (l t : list A) :
  firstn (length l) (l ++ t)%list = l.
Proof. induction l as [|x l IH]; [reflexivity|]. simpl. now rewrite IH. Qed.

(** C10.  No call clips an array of the caller.  After a call, whatever
    its band and its correction setting, the arrays that were in the
    store before it are there unchanged, and so they are after an
    iteration of the sweep loop: the clipping of lines 131-132 comes
    after line 118, which raises.  Ten sweeps of band S with a
    reflectivity of 150 dBZ end in the IndexError of line 118 with the
    store as it was, the lowest sweep still at 150 where the clipping
    would have left 100. *)
Theorem clipping_never_reaches_the_caller :
  (forall argsort antenna_to_cartesian safe_log a h,
     firstn (length h) (fst (main argsort antenna_to_cartesian safe_log a h)) = h) /\
  (forall antenna_to_cartesian a s m n20 n_ppi st i h,
     firstn (length h) (fst (sweep_body antenna_to_cartesian a s m n20 n_ppi st i h)) = h) /\
  main stable_argsort plane_cartesian tolerant_log loud_sweeps loud_heap =
    (loud_heap, Err IndexError) /\
  loud_heap !! 0%nat = Some (uniform 2 2 150) /\
  grid_map clip_dbz (uniform 2 2 150) = uniform 2 2 100.
Proof.
  split; [|split; [|split; [|split]]].
  - intros argsort antenna_to_cartesian safe_log a h. unfold main, bindM.
    destruct (compute_shi_raises argsort antenna_to_cartesian a h) as (t & e & ->).
    apply firstn_app_length.
  - intros antenna_to_cartesian a s m n20 n_ppi st i h.
    destruct (sweep_body_raises antenna_to_cartesian a s m n20 n_ppi st i h)
      as (t & e & ->).
    apply firstn_app_length.
  - unfold main, compute_shi, bindM, lift, sort_by_fixed_angle.
    simpl elevation_dataset. rewrite stable_argsort_ten_sweeps. reflexivity.
  - reflexivity.
  - unfold uniform, grid_map, clip_dbz, ngtb, nltb, ncmp, Rltb. simpl.
    decide_reals. reflexivity.
Qed.

(** ** Weights and kinetic energy (lines 124-141) *)

Lemma grid_zip_maps {A B C D : Type} (f : B -> C -> D) (p : A -> B) (q : A -> C)
    (g : list (list A)) :
  grid_zip f (grid_map p g) (grid_map q g) = Ok (grid_map (fun x => f (p x) (q x)) g).
Proof.
  unfold grid_zip, grid_map. unfold bzip at 1. rewrite !length_map, Nat.eqb_refl.
  induction g as [|r g IH]; [reflexivity|].
  simpl. rewrite bzip_same_length by now rewrite !length_map.
  simpl. rewrite IH. simpl. f_equal. f_equal.
  clear. induction r as [|x r IH]; [reflexivity|]. simpl. now rewrite IH.
Qed.

Lemma ramp_grid (lo hi : num) (g : grid) :
  let w0 := grid_map (fun v => ndiv (nsub v lo) (nsub hi lo)) g in
  (w1 <- grid_setmask w0 (grid_map (fun v => nleb v lo) g) (Fin 0) ;;
   w2 <- grid_setmask w1 (grid_map (fun v => ngeb v hi) g) (Fin 1) ;;
   w3 <- grid_setmask w2 (grid_map (fun v => nltb v (Fin 0)) w2) (Fin 0) ;;
   grid_setmask w3 (grid_map (fun v => ngtb v (Fin 1)) w3) (Fin 1)) =
  Ok (grid_map (ramp lo hi) g).
Proof.
  simpl. rewrite grid_setmask_map. simpl.
  rewrite grid_setmask_map. simpl.
  rewrite grid_map_map, grid_setmask_map. simpl.
  rewrite grid_map_map, grid_setmask_map. reflexivity.
Qed.

Lemma ramp_real (lo hi v : R) :
  lo <= hi ->
  exists w,
    ramp (Fin lo) (Fin hi) (Fin v) = Fin w /\ 0 <= w <= 1 /\
    (v <= lo -> lo < hi -> w = 0) /\
    (hi <= v -> w = 1) /\
    (lo < v < hi -> w = (v - lo) / (hi - lo)).
Proof.
  intros Hle.
  unfold ramp, ngeb, ngtb. unfold ndiv, nsub, lift2, nleb, nltb, ncmp, Rleb, Rltb.
  destruct (Rle_dec hi v) as [Hhi|Hhi].
  - (* at or above the upper level *)
    exists 1.
    destruct (Req_dec_T (hi - lo) 0), (Rle_dec v lo);
      (destruct (Rlt_dec 1 0); [lra|]); (destruct (Rlt_dec 1 1); [lra|]);
      repeat split; try reflexivity; intros; lra.
  - destruct (Rle_dec v lo) as [Hlo|Hlo].
    + exists 0.
      destruct (Req_dec_T (hi - lo) 0);
        (destruct (Rlt_dec 0 0); [lra|]); (destruct (Rlt_dec 1 0); [lra|]);
        repeat split; try reflexivity; intros; lra.
    + assert (Hpos : 0 < hi - lo) by lra.
      assert (H0 : 0 < (v - lo) / (hi - lo)).
      { apply Rdiv_lt_0_compat; lra. }
      assert (H1 : (v - lo) / (hi - lo) < 1).
      { apply (Rmult_lt_reg_r (hi - lo)); [exact Hpos|].
        unfold Rdiv. rewrite Rmult_assoc, Rinv_l by lra. lra. }
      exists ((v - lo) / (hi - lo)).
      destruct (Req_dec_T (hi - lo) 0); [lra|].
      destruct (Rlt_dec ((v - lo) / (hi - lo)) 0); [lra|].
      destruct (Rlt_dec 1 ((v - lo) / (hi - lo))); [lra|].
      repeat split; try reflexivity; intros; lra.
Qed.

(** The reflectivity weight is the ramp from 40 to 50 on every cell: 0 up
    to 40, 1 from 50 on, linear in between, and always within [0, 1]; a
    missing reflectivity has a missing weight. *)
Theorem reflectivity_weight_is_a_ramp (refl : grid) :
  calc_reflectivity_weights refl = Ok (grid_map (ramp Zl Zu) refl) /\
  ramp Zl Zu NaN = NaN /\
  (forall z : R,
     exists w,
       ramp Zl Zu (Fin z) = Fin w /\ 0 <= w <= 1 /\
       (z <= 40 -> w = 0) /\ (50 <= z -> w = 1) /\
       (40 < z < 50 -> w = (z - 40) / (50 - 40))).
Proof.
  split; [apply (ramp_grid Zl Zu refl)|]. split; [reflexivity|].
  intros z. destruct (ramp_real 40 50 z) as (w & Hw & Hr & H0 & H1 & Hm); [lra|].
  exists w. repeat split; try tauto; lra.
Qed.

(** The temperature weight is the ramp from the melt layer to the
    minus-20 layer on every cell of the height grid: within [0, 1], 0 at
    and below the melt layer, 1 at and above the minus-20 layer. *)
Theorem temperature_weight_is_a_ramp (z : grid) (meltlayer neg20layer : num) :
  calc_Wt z meltlayer neg20layer = Ok (grid_map (ramp meltlayer neg20layer) z) /\
  (forall lo hi v : R, lo <= hi ->
     exists w,
       ramp (Fin lo) (Fin hi) (Fin v) = Fin w /\ 0 <= w <= 1 /\
       (v <= lo -> lo < hi -> w = 0) /\ (hi <= v -> w = 1) /\
       (lo < v < hi -> w = (v - lo) / (hi - lo))).
Proof.
  split; [apply (ramp_grid meltlayer neg20layer z)|].
  intros lo hi v. apply ramp_real.
Qed.

(** The weight half way between levels at 3000 and 5000. *)
Lemma temperature_weight_is_a_ramp_witness :
  exists w,
    ramp (Fin 3000) (Fin 5000) (Fin 4000) = Fin w /\ 0 <= w <= 1 /\
    (4000 <= 3000 -> 3000 < 5000 -> w = 0) /\ (5000 <= 4000 -> w = 1) /\
    (3000 < 4000 < 5000 -> w = (4000 - 3000) / (5000 - 3000)).
Proof.
  apply (proj2 (temperature_weight_is_a_ramp [] NaN NaN) 3000 5000 4000).
  lra.
Defined.

(** Kinetic energy: every cell is 5e-6 times 10 to the power 0.084 times
    the clipped reflectivity, times the reflectivity weight of the raw
    reflectivity, and it is never negative. *)
Theorem hail_ke_is_not_negative (refl : grid) :
  calc_hail_ke (grid_map clip_dbz refl) (grid_map (ramp Zl Zu) refl) =
    Ok (grid_map hail_ke_value refl) /\
  (forall z : R, exists k, hail_ke_value (Fin z) = Fin k /\ 0 <= k).
Proof.
  split.
  - unfold calc_hail_ke. rewrite grid_map_map. apply grid_zip_maps.
  - intros z. unfold hail_ke_value.
    destruct (ramp_real 40 50 z) as (w & Hw & Hr & _); [lra|].
    change (ramp Zl Zu (Fin z)) with (ramp (Fin 40) (Fin 50) (Fin z)). rewrite Hw.
    assert (Hc : exists c, clip_dbz (Fin z) = Fin c).
    { unfold clip_dbz, ngtb. unfold nltb, ncmp, Rltb.
      destruct (Rlt_dec 100 z); [|destruct (Rlt_dec z (-100))];
        [destruct (Rlt_dec 100 (-100)); [lra|]| |]; eexists; reflexivity. }
    destruct Hc as (c & ->). unfold npow, nmul, lift2.
    destruct (Rlt_dec 0 10); [|lra].
    eexists. split; [reflexivity|].
    apply Rmult_le_pos; [|lra].
    apply Rmult_le_pos; [lra|]. left. apply exp_pos.
Qed.

(** ** The column integration (lines 154-184) *)

Lemma upper_sweep_adds_five (lowest_valid : bool) :
  add_sweep (one_cell_sweeps lowest_valid) (Fin 30000) (Fin 40000) (Fin 0) 1 =
  Ok (Fin (0 + 5)).
Proof.
  unfold add_sweep, nearest_cell. simpl.
  unfold neqb, ncmp, Reqb. decide_reals. reflexivity.
Qed.

(** C1.  The column integration raises at the head of its outer loop for
    every sorted sweep set that has a lowest sweep: [range] is applied to
    the azimuth array.  Its cell step does not scale the sum either.  For
    a cell whose lowest element is invalid and whose upper element 5 is
    valid the sum is 5, and the cell of a one-cell grid is left
    not-a-number, not 0.5: what is stored is 0.1 times the grid.  On a
    grid of more cells that store raises, and a valid lowest cell raises
    when its seed is read. *)
Theorem column_integration_does_not_scale_the_sum :
  (forall r e az0 azs rg0 rgs st n_ppi,
     column_integration (mkSorted r e (az0 :: azs) (rg0 :: rgs)) st n_ppi =
     Err TypeError) /\
  shi_cell (one_cell_sweeps false) 2 [[NaN]] 0 0 = Ok [[NaN]] /\
  shi_cell (one_cell_sweeps true) 2 [[NaN]] 0 0 = Err IndexError /\
  setitem_array [[NaN; NaN]; [NaN; NaN]] 0 0
    (grid_map (nmul (Fin 0.1)) [[NaN; NaN]; [NaN; NaN]]) =
  Err (ValueError "setting an array element with a sequence.").
Proof.
  split; [reflexivity|]. split; [|split; reflexivity].
  unfold shi_cell. simpl. rewrite upper_sweep_adds_five. simpl.
  unfold ngtb, nltb, ncmp, Rltb. decide_reals. reflexivity.
Qed.

(** ** No call returns *)

Section NoReturn.

Variable argsort : vec -> list nat.
Variable antenna_to_cartesian : grid -> grid -> grid -> result (grid * grid * grid).
Variable safe_log : num -> num * num.

(** Every call raises, and it leaves the arrays of the caller as they
    were: whatever it wrote is in arrays it created itself. *)
Theorem main_always_raises (a : args) (h : heap) :
  exists t e,
    main argsort antenna_to_cartesian safe_log a h = ((h ++ t)%list, Err e).
Proof.
  unfold main, bindM.
  destruct (compute_shi_raises argsort antenna_to_cartesian a h) as (t & e & ->).
  now exists t, e.
Qed.

End NoReturn.

(** * Further properties *)

(** ** Failures before the sweep loop (lines 59-87) *)

Lemma take_ok_or_index_error {A : Type} (l : list A) (idx : list nat) :
  (exists r, take l idx = Ok r) \/ take l idx = Err IndexError.
Proof.
  unfold take. induction idx as [|i idx IH]; [left; eexists; reflexivity|].
  simpl. rewrite item_of_nat. destruct (l !! i) as [x|]; [|right; reflexivity].
  simpl. destruct IH as [(r & ->) | ->]; [left; eexists; reflexivity|right; reflexivity].
Qed.

Lemma take_out_of_range {A : Type} (l : list A) (idx : list nat) (i : nat) :
  In i idx -> (length l <= i)%nat -> take l idx = Err IndexError.
Proof.
  unfold take. induction idx as [|j idx IH]; [intros []|].
  intros [->|Hin] Hi; simpl; rewrite item_of_nat.
  - rewrite (proj2 (lookup_ge_None l i)) by exact Hi. reflexivity.
  - destruct (l !! j) as [x|]; [|reflexivity]. simpl. now rewrite IH.
Qed.

Section EarlyFailures.

Variable argsort : vec -> list nat.
Variable antenna_to_cartesian : grid -> grid -> grid -> result (grid * grid * grid).
Variable safe_log : num -> num * num.

(** A band other than C and S is rejected before anything else is looked
    at, the levels included; with a band that is accepted, absent levels
    are rejected next.  Neither failure touches the store. *)
Theorem argument_errors_come_first (a : args) (h : heap) :
  (~ In (radar_band a) ["C"; "S"]%string ->
   main argsort antenna_to_cartesian safe_log a h =
   (h, Err (ValueError "radar_band must be a string of value C or S"))) /\
  (In (radar_band a) ["C"; "S"]%string -> levels a = None ->
   main argsort antenna_to_cartesian safe_log a h =
   (h, Err (ValueError "Missing levels data for freezing level and -20C level"))).
Proof.
  split.
  - intros HN. unfold main, compute_shi, bindM, lift, check_arguments. simpl.
    destruct (String.eqb_spec (radar_band a) "C") as [E|_];
      [exfalso; apply HN; left; now rewrite E|].
    destruct (String.eqb_spec (radar_band a) "S") as [E|_];
      [exfalso; apply HN; right; left; now rewrite E|].
    reflexivity.
  - intros HB HL. unfold main, compute_shi, bindM, lift, check_arguments.
    rewrite HL. destruct HB as [<-|[<-|[]]]; reflexivity.
Qed.

(** A volume of no sweep or of one sweep is refused with the exception
    of line 85, whatever the method and the other settings are. *)
Theorem single_sweep_is_refused (a : args) (h : heap) (n : nat) (lv : vec) :
  In (radar_band a) ["C"; "S"]%string ->
  levels a = Some lv -> lv <> [] ->
  n_sweeps a n ->
  Permutation (argsort (elevation_dataset a)) (seq 0 n) ->
  (n <= 1)%nat ->
  main argsort antenna_to_cartesian safe_log a h =
  (h, Err (PyException "Require more than one sweep to calculate MESH")).
Proof.
  intros HB HL Hlv Hn HP Hle.
  unfold main, compute_shi, bindM, lift.
  rewrite (check_arguments_ok a lv HB HL).
  destruct (assign_levels_nonempty lv Hlv) as (ml & ->).
  destruct (sort_by_fixed_angle_ok argsort a n Hn HP) as (s & -> & ->).
  unfold check_sweep_count.
  destruct (n <=? 1)%nat eqn:E1; [reflexivity|].
  apply Nat.leb_gt in E1. lia.
Qed.

(** When the reflectivity, azimuth or range list has fewer entries than
    there are elevation angles, the reordering of lines 77-80 runs off
    its end: the call raises IndexError and leaves the store alone. *)
Theorem short_dataset_raises (a : args) (h : heap) (lv : vec) :
  In (radar_band a) ["C"; "S"]%string ->
  levels a = Some lv -> lv <> [] ->
  Permutation (argsort (elevation_dataset a)) (seq 0 (length (elevation_dataset a))) ->
  (length (reflectivity_dataset a) < length (elevation_dataset a) \/
   length (azimuth_dataset a) < length (elevation_dataset a) \/
   length (range_dataset a) < length (elevation_dataset a))%nat ->
  main argsort antenna_to_cartesian safe_log a h = (h, Err IndexError).
Proof.
  intros HB HL Hlv HP Hshort.
  unfold main, compute_shi, bindM, lift.
  rewrite (check_arguments_ok a lv HB HL).
  destruct (assign_levels_nonempty lv Hlv) as (ml & ->).
  assert (Hin : forall k, (k < length (elevation_dataset a))%nat ->
                In k (argsort (elevation_dataset a))).
  { intros k Hk. eapply Permutation_in; [apply Permutation_sym, HP|].
    apply in_seq. lia. }
  assert (HS : sort_by_fixed_angle argsort a = Err IndexError).
  { unfold sort_by_fixed_angle.
    destruct (take_ok_or_index_error (reflectivity_dataset a)
                (argsort (elevation_dataset a))) as [(r & Hr) | ->]; [|reflexivity].
    rewrite Hr. simpl.
    destruct (take_ok_or_index_error (elevation_dataset a)
                (argsort (elevation_dataset a))) as [(e & ->) | ->]; [|reflexivity].
    simpl.
    destruct (take_ok_or_index_error (azimuth_dataset a)
                (argsort (elevation_dataset a))) as [(z & Hz) | ->]; [|reflexivity].
    rewrite Hz. simpl.
    destruct (take_ok_or_index_error (range_dataset a)
                (argsort (elevation_dataset a))) as [(g & Hg) | ->]; [|reflexivity].
    exfalso. destruct Hshort as [Hs|[Hs|Hs]].
    - rewrite (take_out_of_range _ _ (length (reflectivity_dataset a))) in Hr;
        [discriminate|now apply Hin|lia].
    - rewrite (take_out_of_range _ _ (length (azimuth_dataset a))) in Hz;
        [discriminate|now apply Hin|lia].
    - rewrite (take_out_of_range _ _ (length (range_dataset a))) in Hg;
        [discriminate|now apply Hin|lia]. }
  rewrite HS. reflexivity.
Qed.

End EarlyFailures.

(** An unknown band together with absent levels, and band C without
    levels. *)
Lemma argument_errors_come_first_witness :
  main stable_argsort plane_cartesian tolerant_log unknown_band [] =
    ([], Err (ValueError "radar_band must be a string of value C or S")) /\
  main stable_argsort plane_cartesian tolerant_log missing_levels [] =
    ([], Err (ValueError "Missing levels data for freezing level and -20C level")).
Proof.
  split.
  - apply (proj1 (argument_errors_come_first stable_argsort plane_cartesian tolerant_log
                    unknown_band [])).
    simpl. intros [H|[H|[]]]; discriminate H.
  - apply (proj2 (argument_errors_come_first stable_argsort plane_cartesian tolerant_log
                    missing_levels [])).
    + simpl. left. reflexivity.
    + reflexivity.
Defined.

(** One sweep, with a method that does not exist. *)
Lemma single_sweep_is_refused_witness :
  main stable_argsort plane_cartesian tolerant_log one_sweep_unknown_method [uniform 1 2 55] =
  ([uniform 1 2 55], Err (PyException "Require more than one sweep to calculate MESH")).
Proof.
  apply (single_sweep_is_refused stable_argsort plane_cartesian tolerant_log
           one_sweep_unknown_method [uniform 1 2 55] 1 [Fin 3000; Fin 5000]).
  - simpl. right. left. reflexivity.
  - reflexivity.
  - discriminate.
  - repeat split.
  - apply Permutation_refl.
  - lia.
Defined.

(** Two elevation angles and one reflectivity array. *)
Lemma short_dataset_raises_witness :
  main stable_argsort plane_cartesian tolerant_log short_reflectivity [uniform 2 2 55] =
  ([uniform 2 2 55], Err IndexError).
Proof.
  apply (short_dataset_raises stable_argsort plane_cartesian tolerant_log
           short_reflectivity [uniform 2 2 55] [Fin 3000; Fin 5000]).
  - simpl. right. left. reflexivity.
  - reflexivity.
  - discriminate.
  - change (elevation_dataset short_reflectivity) with (elevation_dataset two_sweeps).
    rewrite stable_argsort_two_sweeps. apply Permutation_refl.
  - left. simpl. lia.
Defined.

(** ** Where a call with ten or more sweeps stops (lines 89-123) *)

Section FirstIteration.

Variable argsort : vec -> list nat.
Variable antenna_to_cartesian : grid -> grid -> grid -> result (grid * grid * grid).
Variable safe_log : num -> num * num.

Lemma check_sweep_count_ten (n : nat) : (10 <= n)%nat -> check_sweep_count n = Ok tt.
Proof.
  intros Hn. unfold check_sweep_count.
  destruct (n <=? 1)%nat eqn:E1; [apply Nat.leb_le in E1; lia|].
  destruct (n <? 10)%nat eqn:E2; [apply Nat.ltb_lt in E2; lia|reflexivity].
Qed.

Lemma ground_range_of_one_shape (xs ys : list grid) (x0 y0 : grid) (rows cols : nat) :
  has_shape rows cols x0 -> has_shape rows cols y0 ->
  calc_ground_range (x0 :: xs) (y0 :: ys) =
  Ok (grid_map nsqrt
        (zip_with (zip_with nadd) (grid_map nsquare x0) (grid_map nsquare y0))).
Proof.
  intros Hx Hy. unfold calc_ground_range. simpl.
  destruct (grid_zip_same_shape nadd rows cols (grid_map nsquare x0) (grid_map nsquare y0))
    as [-> _]; [now apply has_shape_map..|].
  reflexivity.
Qed.

(** With ten or more sweeps, a coordinate transform that returns for the
    lowest sweep and coordinate grids of one shape, the call stops in its
    first iteration with the IndexError of line 118.  By then it has
    written nothing into the arrays of the caller; with band C and the
    correction it has created one array, the corrected reflectivity of
    the lowest sweep, and nothing else. *)
Theorem ten_sweeps_stop_at_line_118 (a : args) (h : heap) (lv : vec) (s : sorted_sweeps)
    (rg az : vec) (el : num) (l : loc) (g x y z : grid) (rows cols : nat) :
  In (radar_band a) ["C"; "S"]%string ->
  levels a = Some lv -> lv <> [] ->
  sort_by_fixed_angle argsort a = Ok s ->
  (10 <= length (s_elevation s))%nat ->
  s_range s !! 0%nat = Some rg -> s_elevation s !! 0%nat = Some el ->
  s_azimuth s !! 0%nat = Some az -> s_reflectivity s !! 0%nat = Some l ->
  reproject antenna_to_cartesian rg az el = Ok (x, y, z) ->
  has_shape rows cols x -> has_shape rows cols y ->
  h !! l = Some g ->
  main argsort antenna_to_cartesian safe_log a h =
  ((if String.eqb (radar_band a) "C" && correct_cband_refl a
    then (h ++ [grid_map cband_corrected g])%list else h),
   Err IndexError).
Proof.
  intros HB HL Hlv Hs Hn Hrg Hel Haz Hl Hre Hx Hy Hg.
  unfold main, compute_shi, bindM, lift.
  rewrite (check_arguments_ok a lv HB HL).
  destruct (assign_levels_nonempty lv Hlv) as (ml & ->).
  rewrite Hs, (check_sweep_count_ten _ Hn).
  unfold preprocess.
  destruct (length (s_elevation s)) as [|k] eqn:En; [lia|].
  simpl seq. simpl for_each. unfold bindM at 1.
  unfold sweep_body, bindM, lift. simpl Z.of_nat.
  change 0%Z with (Z.of_nat 0). rewrite !item_of_nat, Hrg, Hel, Haz, Hre.
  simpl. rewrite (ground_range_of_one_shape [] [] x y rows cols Hx Hy).
  unfold apply_cband_correction.
  destruct (String.eqb (radar_band a) "C" && correct_cband_refl a).
  - unfold bindM, lift, read, alloc, ret, deref.
    change 0%Z with (Z.of_nat 0). rewrite item_of_nat, Hl, Hg.
    rewrite ?dz_always_raises. reflexivity.
  - unfold ret. rewrite ?dz_always_raises. reflexivity.
Qed.

End FirstIteration.

(** Ten sweeps, band C: the store of ten arrays has an eleventh one after
    the call. *)
Lemma ten_sweeps_stop_at_line_118_witness :
  main stable_argsort plane_cartesian tolerant_log ten_sweeps ten_sweeps_heap =
  ((ten_sweeps_heap ++ [grid_map cband_corrected (uniform 2 2 55)])%list,
   Err IndexError).
Proof.
  eapply (ten_sweeps_stop_at_line_118 stable_argsort plane_cartesian tolerant_log
           ten_sweeps ten_sweeps_heap [Fin 3000; Fin 5000]
           (mkSorted (seq 0 10) ten_elevations
              (repeat [Fin 0; Fin 90] 10) (repeat [Fin 1000; Fin 2000] 10))
           [Fin 1000; Fin 2000] [Fin 0; Fin 90] (Fin 0.5) 0%nat (uniform 2 2 55)
           _ _ _ 2%nat 2%nat).
  - simpl. left. reflexivity.
  - reflexivity.
  - discriminate.
  - unfold sort_by_fixed_angle. simpl elevation_dataset.
    rewrite stable_argsort_ten_sweeps. reflexivity.
  - simpl. lia.
  - reflexivity.
  - reflexivity.
  - reflexivity.
  - reflexivity.
  - reflexivity.
  - split; [reflexivity|repeat constructor].
  - split; [reflexivity|repeat constructor].
  - reflexivity.
Defined.

(** ** Sweeps that are supplied in order (lines 75-81) *)

Lemma unzip_sweep_rows (a : args) (n : nat) :
  n_sweeps a n ->
  unzip_rows (sweep_rows a) =
  mkSorted (reflectivity_dataset a) (elevation_dataset a)
    (azimuth_dataset a) (range_dataset a).
Proof.
  intros Hn. pose proof Hn as (HR & HE & HA & HG).
  pose proof (length_sweep_rows a n Hn) as HL.
  unfold unzip_rows. rewrite (map_row_key_sweep_rows a n Hn). f_equal.
  - apply (nth_ext _ _ 0%nat 0%nat); [rewrite length_map; lia|].
    intros i _.
    change 0%nat with ((fun t : nat * num * list num * list num => fst (fst (fst t)))
                         (0%nat, NaN, [], [])) at 1.
    rewrite map_nth, (nth_sweep_rows a n i Hn). reflexivity.
  - apply (nth_ext _ _ [] []); [rewrite length_map; lia|].
    intros i _.
    change (@nil num) with ((fun t : nat * num * list num * list num => snd (fst t))
                              (0%nat, NaN, [], [])) at 1.
    rewrite map_nth, (nth_sweep_rows a n i Hn). reflexivity.
  - apply (nth_ext _ _ [] []); [rewrite length_map; lia|].
    intros i _.
    change (@nil num) with (snd (0%nat, NaN, @nil num, @nil num)) at 1.
    rewrite map_nth, (nth_sweep_rows a n i Hn). reflexivity.
Qed.

Section KeptOrder.

Variable argsort : vec -> list nat.

(** Sweeps that are supplied in ascending order of pairwise distinct
    elevation angles come out of the sorting exactly as they went in:
    the four sequences are unchanged. *)
Theorem sorted_input_is_kept (a : args) (n : nat) :
  n_sweeps a n ->
  NoDup (elevation_dataset a) ->
  Sorted sort_le (elevation_dataset a) ->
  is_argsort (elevation_dataset a) (argsort (elevation_dataset a)) ->
  sort_by_fixed_angle argsort a =
  Ok (mkSorted (reflectivity_dataset a) (elevation_dataset a)
        (azimuth_dataset a) (range_dataset a)).
Proof.
  intros Hn HND HS Harg.
  destruct (sort_by_fixed_angle_sorts argsort a n Hn Harg) as (rs & -> & HP & HSr).
  assert (Heq : rs = sweep_rows a).
  { apply (sorted_selection_unique (sweep_rows a) (sweep_rows a)).
    - apply Permutation_refl.
    - now rewrite (map_row_key_sweep_rows a n Hn).
    - apply Permutation_refl.
    - exact HP.
    - now rewrite (map_row_key_sweep_rows a n Hn).
    - exact HSr. }
  rewrite Heq, (unzip_sweep_rows a n Hn). reflexivity.
Qed.

End KeptOrder.

(** The two sweeps at 0.5 and 1.5 degrees. *)
Lemma sorted_input_is_kept_witness :
  sort_by_fixed_angle stable_argsort two_sweeps =
  Ok (mkSorted (reflectivity_dataset two_sweeps) (elevation_dataset two_sweeps)
        (azimuth_dataset two_sweeps) (range_dataset two_sweeps)).
Proof.
  apply (sorted_input_is_kept stable_argsort two_sweeps 2).
  - repeat split.
  - simpl. apply NoDup_cons_2; [|apply NoDup_singleton].
    intros H. apply list_elem_of_In in H. destruct H as [H|[]].
    injection H. lra.
  - simpl. sorted_reals.
  - split.
    + rewrite stable_argsort_two_sweeps. apply Permutation_refl.
    + rewrite stable_argsort_two_sweeps. simpl. sorted_reals.
Defined.

(** ** The grids handed to the coordinate transform (lines 99-106) *)

Section Reprojection.

Variable antenna_to_cartesian : grid -> grid -> grid -> result (grid * grid * grid).

(** The coordinate transform receives three grids.  The azimuth grid has
    one row per ray and one column per range bin.  The range grid and
    the elevation grid come from the second call of [meshgrid]: they
    are square, with one row and one column per range bin; every row of
    the range grid is the range sequence and every cell of the elevation
    grid is the elevation angle of the sweep.  So the three grids have
    one shape only when the sweep has as many rays as range bins. *)
Theorem reproject_grid_shapes (rg az : vec) (el : num) :
  exists range_grid azimuth_grid elevation_grid,
    reproject antenna_to_cartesian rg az el =
      antenna_to_cartesian range_grid azimuth_grid elevation_grid /\
    has_shape (length rg) (length rg) range_grid /\
    has_shape (length az) (length rg) azimuth_grid /\
    has_shape (length rg) (length rg) elevation_grid /\
    (forall i j v, cell range_grid i j = Some v <->
                   (i < length rg)%nat /\ rg !! j = Some v) /\
    (forall i j v, cell azimuth_grid i j = Some v <->
                   az !! i = Some v /\ (j < length rg)%nat) /\
    (forall i j v, cell elevation_grid i j = Some v <->
                   (i < length rg)%nat /\ (j < length rg)%nat /\ v = nadd (Fin 0) el).
Proof.
  eexists _, _, _. split; [reflexivity|]. unfold meshgrid. simpl.
  repeat split.
  - now rewrite !length_map.
  - apply Forall_map, Forall_map, Forall_forall. now intros.
  - now rewrite length_map.
  - apply Forall_map, Forall_forall. intros x _. simpl. now rewrite length_map.
  - now rewrite !length_map.
  - apply Forall_map, Forall_map, Forall_forall. intros x _. simpl. now rewrite length_map.
  - unfold cell in H. rewrite !list_lookup_fmap in H.
    destruct (rg !! i) eqn:E; [|discriminate]. eapply lookup_lt_Some, E.
  - unfold cell in H. rewrite !list_lookup_fmap in H.
    destruct (rg !! i) eqn:E; [|discriminate]. exact H.
  - intros [Hi Hj]. unfold cell. rewrite !list_lookup_fmap.
    destruct (lookup_lt_is_Some_2 rg i Hi) as [x ->]. exact Hj.
  - unfold cell in H. rewrite list_lookup_fmap in H.
    destruct (az !! i) eqn:E; [|discriminate]. simpl in H.
    rewrite list_lookup_fmap in H. destruct (rg !! j); [|discriminate].
    simpl in H. congruence.
  - unfold cell in H. rewrite list_lookup_fmap in H.
    destruct (az !! i) eqn:E; [|discriminate]. simpl in H.
    rewrite list_lookup_fmap in H. destruct (rg !! j) eqn:Ej; [|discriminate].
    eapply lookup_lt_Some, Ej.
  - intros [Hi Hj]. unfold cell. rewrite list_lookup_fmap, Hi. simpl.
    rewrite list_lookup_fmap.
    destruct (lookup_lt_is_Some_2 rg j Hj) as [x ->]. reflexivity.
  - unfold cell in H. rewrite !list_lookup_fmap in H.
    destruct (rg !! i) eqn:E; [|discriminate]. eapply lookup_lt_Some, E.
  - unfold cell in H. rewrite !list_lookup_fmap in H.
    destruct (rg !! i) eqn:E; [|discriminate]. simpl in H.
    rewrite list_lookup_fmap in H. destruct (rg !! j) eqn:Ej; [|discriminate].
    eapply lookup_lt_Some, Ej.
  - unfold cell in H. rewrite !list_lookup_fmap in H.
    destruct (rg !! i) eqn:E; [|discriminate]. simpl in H.
    rewrite list_lookup_fmap in H. destruct (rg !! j) eqn:Ej; [|discriminate].
    simpl in H. congruence.
  - intros (Hi & Hj & ->). unfold cell. rewrite !list_lookup_fmap.
    destruct (lookup_lt_is_Some_2 rg i Hi) as [x ->]. simpl.
    rewrite list_lookup_fmap.
    destruct (lookup_lt_is_Some_2 rg j Hj) as [x' ->]. reflexivity.
Qed.

End Reprojection.

(** ** Clipping of the reflectivity (lines 130-132) *)

Lemma clip_dbz_real (v : R) :
  exists c, clip_dbz (Fin v) = Fin c /\ -100 <= c <= 100 /\
            (-100 <= v <= 100 -> c = v) /\
            (100 < v -> c = 100) /\ (v < -100 -> c = -100).
Proof.
  unfold clip_dbz, ngtb. unfold nltb, ncmp, Rltb.
  destruct (Rlt_dec 100 v).
  - destruct (Rlt_dec 100 (-100)); [lra|].
    exists 100. repeat split; try reflexivity; intros; lra.
  - destruct (Rlt_dec v (-100)).
    + exists (-100). repeat split; try reflexivity; intros; lra.
    + exists v. repeat split; try reflexivity; intros; lra.
Qed.

Lemma clip_dbz_idempotent (v : num) : clip_dbz (clip_dbz v) = clip_dbz v.
Proof.
  destruct v as [|x]; [reflexivity|].
  destruct (clip_dbz_real x) as (c & -> & Hc & _).
  destruct (clip_dbz_real c) as (c' & -> & _ & Hid & _).
  f_equal. now apply Hid.
Qed.

(** Clipping puts every reflectivity that is a number into [-100, 100]
    and keeps a missing one missing.  It overwrites the one array that
    entry [i] refers to and no other; clipping the same sweep again, or
    a sweep that shares the array, changes nothing more; and an array
    that is within [-100, 100] already is written back as it was. *)
Theorem clipping_is_idempotent_and_local (refl : list loc) (i : nat) (h : heap)
    (l : loc) (g : grid) :
  refl !! i = Some l -> h !! l = Some g ->
  clip_reflectivity refl i h = (<[l := grid_map clip_dbz g]> h, Ok tt) /\
  (forall j, refl !! j = Some l ->
     clip_reflectivity refl j (<[l := grid_map clip_dbz g]> h) =
     (<[l := grid_map clip_dbz g]> h, Ok tt)) /\
  (forall l', l' <> l -> (<[l := grid_map clip_dbz g]> h) !! l' = h !! l') /\
  (forall v : R, exists c, clip_dbz (Fin v) = Fin c /\ -100 <= c <= 100 /\
                           (-100 <= v <= 100 -> c = v)) /\
  clip_dbz NaN = NaN /\
  (Forall (Forall (fun v => clip_dbz v = v)) g ->
   <[l := grid_map clip_dbz g]> h = h).
Proof.
  intros Hl Hg.
  assert (Hlt : (l < length h)%nat) by (eapply lookup_lt_Some; exact Hg).
  split; [now apply clip_reflectivity_at|]. split.
  { intros j Hj.
    rewrite (clip_reflectivity_at refl j _ l (grid_map clip_dbz g) Hj)
      by now apply list_lookup_insert_eq.
    rewrite list_insert_insert_eq, grid_map_map. f_equal. f_equal.
    unfold grid_map. apply map_ext. intros r. apply map_ext. intros v.
    apply clip_dbz_idempotent. }
  split; [intros l' Hne; now apply list_lookup_insert_ne|].
  split.
  { intros v. destruct (clip_dbz_real v) as (c & H1 & H2 & H3 & _).
    exists c. repeat split; tauto. }
  split; [reflexivity|].
  intros Hin.
  assert (Hsame : grid_map clip_dbz g = g).
  { unfold grid_map. clear Hg. induction Hin as [|r g Hr _ IH]; [reflexivity|].
    simpl. rewrite IH. f_equal.
    induction Hr as [|v r Hv _ IHr]; [reflexivity|]. simpl. now rewrite Hv, IHr. }
  rewrite Hsame. now apply list_insert_id.
Qed.

(** A cell of 150 dBZ in the array of the first of two sweeps that share
    it. *)
Lemma clipping_is_idempotent_and_local_witness :
  clip_reflectivity [0%nat; 0%nat] 0 [[[Fin 150; Fin 55]]] =
    (<[0%nat := grid_map clip_dbz [[Fin 150; Fin 55]]]> [[[Fin 150; Fin 55]]], Ok tt) /\
  clip_reflectivity [0%nat; 0%nat] 1
    (<[0%nat := grid_map clip_dbz [[Fin 150; Fin 55]]]> [[[Fin 150; Fin 55]]]) =
    (<[0%nat := grid_map clip_dbz [[Fin 150; Fin 55]]]> [[[Fin 150; Fin 55]]], Ok tt).
Proof.
  destruct (clipping_is_idempotent_and_local [0%nat; 0%nat] 0 [[[Fin 150; Fin 55]]]
              0%nat [[Fin 150; Fin 55]] eq_refl eq_refl) as (H1 & H2 & _).
  split; [exact H1|]. apply (H2 1%nat). reflexivity.
Defined.

(** ** Kinetic energy as a function of reflectivity (lines 124-135) *)

Lemma clip_dbz_monotone (z1 z2 c1 c2 : R) :
  z1 <= z2 -> clip_dbz (Fin z1) = Fin c1 -> clip_dbz (Fin z2) = Fin c2 -> c1 <= c2.
Proof.
  intros Hz H1 H2.
  destruct (clip_dbz_real z1) as (d1 & E1 & B1 & I1 & U1 & L1).
  destruct (clip_dbz_real z2) as (d2 & E2 & B2 & I2 & U2 & L2).
  rewrite E1 in H1. rewrite E2 in H2. injection H1 as <-. injection H2 as <-.
  destruct (Rlt_dec 100 z1), (Rlt_dec z1 (-100)), (Rlt_dec 100 z2), (Rlt_dec z2 (-100));
    try lra;
    try (rewrite U1 by lra); try (rewrite L1 by lra); try (rewrite I1 by lra);
    try (rewrite U2 by lra); try (rewrite L2 by lra); try (rewrite I2 by lra); lra.
Qed.

Lemma weight_monotone (z1 z2 w1 w2 : R) :
  z1 <= z2 -> ramp Zl Zu (Fin z1) = Fin w1 -> ramp Zl Zu (Fin z2) = Fin w2 -> w1 <= w2.
Proof.
  intros Hz H1 H2.
  destruct (ramp_real 40 50 z1) as (d1 & E1 & B1 & L1 & U1 & M1); [lra|].
  destruct (ramp_real 40 50 z2) as (d2 & E2 & B2 & L2 & U2 & M2); [lra|].
  change (ramp (Fin 40) (Fin 50)) with (ramp Zl Zu) in E1, E2.
  rewrite E1 in H1. rewrite E2 in H2. injection H1 as <-. injection H2 as <-.
  destruct (Rle_dec z2 40) as [A|A].
  - rewrite L1, L2 by lra. lra.
  - destruct (Rle_dec 50 z2) as [B|B]; [rewrite U2 by lra; lra|].
    rewrite M2 by lra.
    destruct (Rle_dec z1 40) as [C|C].
    + rewrite L1 by lra. unfold Rdiv. apply Rmult_le_pos; [lra|].
      left. apply Rinv_0_lt_compat. lra.
    + rewrite M1 by lra. apply Rmult_le_compat_r; [|lra].
      left. apply Rinv_0_lt_compat. lra.
Qed.

Lemma hail_ke_real (z : R) :
  exists c w,
    clip_dbz (Fin z) = Fin c /\ ramp Zl Zu (Fin z) = Fin w /\
    hail_ke_value (Fin z) = Fin (5.0e-6 * Rpower 10 (0.084 * c) * w).
Proof.
  destruct (clip_dbz_real z) as (c & Hc & _).
  destruct (ramp_real 40 50 z) as (w & Hw & _); [lra|].
  change (ramp (Fin 40) (Fin 50)) with (ramp Zl Zu) in Hw.
  exists c, w. split; [exact Hc|]. split; [exact Hw|].
  unfold hail_ke_value. rewrite Hc, Hw. unfold npow, nmul, lift2.
  destruct (Rlt_dec 0 10); [reflexivity|lra].
Qed.

(** The kinetic energy of a cell is 0 for a reflectivity of at most 40
    dBZ and positive above it, so that only cells above 40 dBZ pass the
    energy test of the validity mask; it never decreases when the
    reflectivity grows, and it is the same for every reflectivity from
    100 dBZ on.  A missing reflectivity has a missing energy, which
    fails the test. *)
Theorem hail_ke_grows_with_reflectivity :
  hail_ke_value NaN = NaN /\
  (forall v, ngtb (hail_ke_value v) (Fin 0) = true <->
             exists z, v = Fin z /\ 40 < z) /\
  (forall z, z <= 40 -> exists k, hail_ke_value (Fin z) = Fin k /\ k = 0) /\
  (forall z1 z2 k1 k2, z1 <= z2 ->
     hail_ke_value (Fin z1) = Fin k1 -> hail_ke_value (Fin z2) = Fin k2 -> k1 <= k2) /\
  (forall z, 100 <= z -> hail_ke_value (Fin z) = hail_ke_value (Fin 100)).
Proof.
  split; [reflexivity|]. split; [|split; [|split]].
  - intros v. destruct v as [|z].
    + split; [discriminate|]. intros (z & H & _). discriminate H.
    + destruct (hail_ke_real z) as (c & w & Hc & Hw & ->).
      destruct (ramp_real 40 50 z) as (w' & Hw' & B & L & U & M); [lra|].
      change (ramp (Fin 40) (Fin 50)) with (ramp Zl Zu) in Hw'.
      rewrite Hw in Hw'. injection Hw' as <-.
      assert (Hp : 0 < 5.0e-6 * Rpower 10 (0.084 * c)).
      { apply Rmult_lt_0_compat; [lra|apply exp_pos]. }
      unfold ngtb, nltb, ncmp, Rltb.
      destruct (Rlt_dec 0 (5.0e-6 * Rpower 10 (0.084 * c) * w)) as [Hk|Hk].
      * split; [|reflexivity]. intros _. exists z. split; [reflexivity|].
        destruct (Rle_dec z 40) as [A|A]; [|lra].
        rewrite (L A) in Hk by lra. lra.
      * split; [discriminate|]. intros (z' & Hz & Hgt). injection Hz as <-.
        exfalso. apply Hk. apply Rmult_lt_0_compat; [exact Hp|].
        destruct (Rle_dec 50 z) as [A|A]; [rewrite (U A); lra|].
        rewrite M by lra. apply Rdiv_lt_0_compat; lra.
  - intros z Hz. destruct (hail_ke_real z) as (c & w & Hc & Hw & ->).
    destruct (ramp_real 40 50 z) as (w' & Hw' & B & L & U & M); [lra|].
    change (ramp (Fin 40) (Fin 50)) with (ramp Zl Zu) in Hw'.
    rewrite Hw in Hw'. injection Hw' as <-. rewrite (L Hz) by lra.
    eexists. split; [reflexivity|]. lra.
  - intros z1 z2 k1 k2 Hz H1 H2.
    destruct (hail_ke_real z1) as (c1 & w1 & Hc1 & Hw1 & E1).
    destruct (hail_ke_real z2) as (c2 & w2 & Hc2 & Hw2 & E2).
    rewrite E1 in H1. rewrite E2 in H2. injection H1 as <-. injection H2 as <-.
    pose proof (clip_dbz_monotone z1 z2 c1 c2 Hz Hc1 Hc2) as Hc.
    pose proof (weight_monotone z1 z2 w1 w2 Hz Hw1 Hw2) as Hw.
    destruct (ramp_real 40 50 z1) as (w' & Hw' & B & _); [lra|].
    change (ramp (Fin 40) (Fin 50)) with (ramp Zl Zu) in Hw'.
    rewrite Hw1 in Hw'. injection Hw' as <-.
    assert (Hp1 : 0 < Rpower 10 (0.084 * c1)) by apply exp_pos.
    assert (Hp : Rpower 10 (0.084 * c1) <= Rpower 10 (0.084 * c2)).
    { apply Rle_Rpower; lra. }
    apply Rmult_le_compat; lra.
  - intros z Hz. unfold hail_ke_value.
    destruct (ramp_real 40 50 z) as (w & Hw & _ & _ & U & _); [lra|].
    destruct (ramp_real 40 50 100) as (w0 & Hw0 & _ & _ & U0 & _); [lra|].
    change (ramp (Fin 40) (Fin 50)) with (ramp Zl Zu) in Hw, Hw0.
    rewrite Hw, Hw0, U, U0 by lra.
    destruct (clip_dbz_real z) as (c & Hc & _ & I & Up & _).
    destruct (clip_dbz_real 100) as (c0 & Hc0 & _ & I0 & _).
    rewrite Hc, Hc0, I0 by lra.
    destruct (Rlt_dec 100 z) as [A|A]; [now rewrite (Up A)|].
    rewrite I by lra. replace z with 100 by lra. reflexivity.
Qed.

(** Reflectivities of 45 and 55 dBZ. *)
Lemma hail_ke_grows_with_reflectivity_witness :
  5.0e-6 * Rpower 10 (0.084 * 45) * ((45 - 40) / (50 - 40)) <=
  5.0e-6 * Rpower 10 (0.084 * 55) * 1.
Proof.
  apply (proj1 (proj2 (proj2 (proj2 hail_ke_grows_with_reflectivity))) 45 55); [lra| |].
  - destruct (hail_ke_real 45) as (c & w & Hc & Hw & ->).
    destruct (clip_dbz_real 45) as (c' & Hc' & _ & I & _).
    rewrite Hc in Hc'. injection Hc' as <-. rewrite I by lra.
    destruct (ramp_real 40 50 45) as (w' & Hw' & _ & _ & _ & M); [lra|].
    change (ramp (Fin 40) (Fin 50)) with (ramp Zl Zu) in Hw'.
    rewrite Hw in Hw'. injection Hw' as <-. rewrite M by lra. reflexivity.
  - destruct (hail_ke_real 55) as (c & w & Hc & Hw & ->).
    destruct (clip_dbz_real 55) as (c' & Hc' & _ & I & _).
    rewrite Hc in Hc'. injection Hc' as <-. rewrite I by lra.
    destruct (ramp_real 40 50 55) as (w' & Hw' & _ & _ & U & _); [lra|].
    change (ramp (Fin 40) (Fin 50)) with (ramp Zl Zu) in Hw'.
    rewrite Hw in Hw'. injection Hw' as <-. rewrite U by lra. reflexivity.
Defined.
(** ** The two temperature levels (lines 70-73) *)

Lemma fold_nan (f : R -> R -> R) (t : vec) : fold_left (lift2 f) t NaN = NaN.
Proof. induction t as [|y t IH]; [reflexivity|exact IH]. Qed.

Lemma fold_with_nan (f : R -> R -> R) (t : vec) (x : num) :
  In NaN (x :: t) -> fold_left (lift2 f) t x = NaN.
Proof.
  revert x. induction t as [|y t IH]; intros x [H|H].
  - now subst x.
  - destruct H.
  - subst x. apply fold_nan.
  - simpl. apply IH. destruct H as [->|H].
    + left. now destruct x.
    + now right.
Qed.

Lemma fold_min_least (t : vec) (x : R) :
  Forall finite_num t ->
  exists m, fold_left nmin t (Fin x) = Fin m /\ In (Fin m) (Fin x :: t) /\
            forall y, In (Fin y) (Fin x :: t) -> m <= y.
Proof.
  intros HF. revert x. induction HF as [|v t [y ->] HF IH]; intros x.
  - exists x. split; [reflexivity|]. split; [now left|].
    intros y [H|[]]. injection H as <-. lra.
  - simpl. destruct (IH (Rmin x y)) as (m & E & Hin & Hle).
    exists m. split; [exact E|]. split.
    + destruct Hin as [H|H]; [|now right; right].
      injection H as <-. unfold Rmin. destruct (Rle_dec x y); [now left|right; now left].
    + intros z [H|[H|H]].
      * injection H as <-. pose proof (Hle (Rmin x y) (or_introl eq_refl)).
        pose proof (Rmin_l x y). lra.
      * injection H as <-. pose proof (Hle (Rmin x y) (or_introl eq_refl)).
        pose proof (Rmin_r x y). lra.
      * apply Hle. now right.
Qed.

Lemma fold_max_greatest (t : vec) (x : R) :
  Forall finite_num t ->
  exists m, fold_left nmax t (Fin x) = Fin m /\ In (Fin m) (Fin x :: t) /\
            forall y, In (Fin y) (Fin x :: t) -> y <= m.
Proof.
  intros HF. revert x. induction HF as [|v t [y ->] HF IH]; intros x.
  - exists x. split; [reflexivity|]. split; [now left|].
    intros y [H|[]]. injection H as <-. lra.
  - simpl. destruct (IH (Rmax x y)) as (m & E & Hin & Hle).
    exists m. split; [exact E|]. split.
    + destruct Hin as [H|H]; [|now right; right].
      injection H as <-. unfold Rmax. destruct (Rle_dec x y); [right; now left|now left].
    + intros z [H|[H|H]].
      * injection H as <-. pose proof (Hle (Rmax x y) (or_introl eq_refl)).
        pose proof (Rmax_l x y). lra.
      * injection H as <-. pose proof (Hle (Rmax x y) (or_introl eq_refl)).
        pose proof (Rmax_r x y). lra.
      * apply Hle. now right.
Qed.

Lemma finite_or_nan (lv : vec) : Forall finite_num lv \/ In NaN lv.
Proof.
  induction lv as [|v lv [IH|IH]].
  - left. constructor.
  - destruct v as [|x]; [right; now left|].
    left. constructor; [now exists x|exact IH].
  - right. now right.
Qed.

Lemma assign_levels_finite (lv : vec) :
  lv <> [] -> Forall finite_num lv ->
  exists lo hi,
    assign_levels lv = Ok (Fin lo, Fin hi) /\
    In (Fin lo) lv /\ In (Fin hi) lv /\
    forall x, In (Fin x) lv -> lo <= x <= hi.
Proof.
  intros Hne HF. destruct lv as [|v t]; [congruence|].
  apply Forall_cons in HF. destruct HF as [[x ->] HF].
  destruct (fold_min_least t x HF) as (lo & E1 & I1 & L1).
  destruct (fold_max_greatest t x HF) as (hi & E2 & I2 & L2).
  exists lo, hi. unfold assign_levels. simpl. rewrite E1, E2.
  split; [reflexivity|]. split; [exact I1|]. split; [exact I2|].
  intros y Hy. split; [now apply L1|now apply L2].
Qed.

Lemma assign_levels_nan (lv : vec) :
  In NaN lv -> assign_levels lv = Ok (NaN, NaN).
Proof.
  intros H. destruct lv as [|v t]; [destruct H|].
  unfold assign_levels, np_min, np_max.
  change nmin with (lift2 Rmin). change nmax with (lift2 Rmax).
  rewrite !fold_with_nan by exact H. reflexivity.
Qed.

(** Whatever the number and the order of the levels, the melt layer is
    the least and the minus-20 layer the greatest of them, so that the
    melt layer is never above the minus-20 layer; both are entries of
    the list.  A list with a missing value gives two missing layers, an
    empty list is refused by [np.min], and any reordering of the list
    gives the same two layers. *)
Theorem layers_are_least_and_greatest_level (lv : vec) :
  (lv = [] -> exists msg, assign_levels lv = Err (ValueError msg)) /\
  (lv <> [] -> Forall finite_num lv ->
   exists lo hi,
     assign_levels lv = Ok (Fin lo, Fin hi) /\ lo <= hi /\
     In (Fin lo) lv /\ In (Fin hi) lv /\
     forall x, In (Fin x) lv -> lo <= x <= hi) /\
  (In NaN lv -> assign_levels lv = Ok (NaN, NaN)) /\
  (forall lv', Permutation lv lv' -> assign_levels lv' = assign_levels lv).
Proof.
  split; [intros ->; eexists; reflexivity|]. split; [|split].
  - intros Hne HF.
    destruct (assign_levels_finite lv Hne HF) as (lo & hi & E & I1 & I2 & B).
    exists lo, hi. split; [exact E|]. split; [|split; [exact I1|split; [exact I2|exact B]]].
    destruct (B lo I1). destruct (B hi I2). lra.
  - apply assign_levels_nan.
  - intros lv' HP. destruct (finite_or_nan lv) as [HF|HN].
    + destruct lv as [|v t].
      { apply Permutation_nil in HP. now subst lv'. }
      assert (Hne' : lv' <> []).
      { intros ->. apply Permutation_sym, Permutation_nil in HP. discriminate HP. }
      assert (HF' : Forall finite_num lv').
      { apply List.Forall_forall. intros y Hy.
        apply (proj1 (List.Forall_forall finite_num (v :: t)) HF).
        eapply Permutation_in; [apply Permutation_sym; exact HP|exact Hy]. }
      destruct (assign_levels_finite (v :: t)) as (lo & hi & E & I1 & I2 & B);
        [discriminate|exact HF|].
      destruct (assign_levels_finite lv' Hne' HF') as (lo' & hi' & E' & I1' & I2' & B').
      rewrite E, E'.
      pose proof (B lo' (Permutation_in _ (Permutation_sym HP) I1')).
      pose proof (B hi' (Permutation_in _ (Permutation_sym HP) I2')).
      pose proof (B' lo (Permutation_in _ HP I1)).
      pose proof (B' hi (Permutation_in _ HP I2)).
      replace lo' with lo by lra. replace hi' with hi by lra. reflexivity.
    + rewrite (assign_levels_nan lv HN).
      apply assign_levels_nan. eapply Permutation_in; [exact HP|exact HN].
Qed.

(** Three levels, given out of order. *)
Lemma layers_are_least_and_greatest_level_witness :
  exists lo hi,
    assign_levels [Fin 5000; Fin 3000; Fin 4000] = Ok (Fin lo, Fin hi) /\ lo <= hi /\
    In (Fin lo) [Fin 5000; Fin 3000; Fin 4000] /\
    In (Fin hi) [Fin 5000; Fin 3000; Fin 4000] /\
    forall x, In (Fin x) [Fin 5000; Fin 3000; Fin 4000] -> lo <= x <= hi.
Proof.
  apply (proj1 (proj2 (layers_are_least_and_greatest_level
                         [Fin 5000; Fin 3000; Fin 4000]))).
  - discriminate.
  - repeat constructor; eexists; reflexivity.
Defined.
(** ** MESH of a missing, a negative, a zero and a positive SHI
    (lines 186-209) *)

Lemma calc_mesh_law (method : string) (shi m : grid) (d c : string) :
  calc_mesh method shi = Ok (m, d, c) ->
  exists co e, 0 < co /\ 0 < e /\ m = grid_map (mesh_value co e) shi.
Proof.
  unfold calc_mesh. intros H.
  destruct (String.eqb method "witt1998");
    [|destruct (String.eqb method "mh2019_75");
      [|destruct (String.eqb method "mh2019_95"); [|discriminate H]]];
    injection H as <- _ _; eexists _, _; (split; [|split; [|reflexivity]]); lra.
Qed.

Lemma mesh_value_sign (co e : R) (s : num) :
  0 < co -> 0 < e ->
  (mesh_value co e s = NaN <-> s = NaN \/ exists x, s = Fin x /\ x < 0) /\
  (mesh_value co e s = Fin 0 <-> s = Fin 0) /\
  (forall x, s = Fin x -> 0 < x -> exists y, mesh_value co e s = Fin y /\ 0 < y).
Proof.
  intros Hc He. destruct s as [|x].
  - split; [|split].
    + split; [now left|reflexivity].
    + split; discriminate.
    + intros x H. discriminate H.
  - destruct (Rlt_dec 0 x) as [Hx|Hx].
    + rewrite mesh_value_positive by exact Hx.
      assert (Hp : 0 < co * Rpower x e).
      { apply Rmult_lt_0_compat; [exact Hc|apply exp_pos]. }
      split; [|split].
      * split; [discriminate|]. intros [H|(y & H & Hy)]; [discriminate H|].
        injection H as <-. lra.
      * split; intros H; injection H as H; lra.
      * intros y H _. injection H as <-. eexists. split; [reflexivity|exact Hp].
    + destruct (Req_dec_T x 0) as [->|Hz].
      * rewrite mesh_value_zero by exact He.
        split; [|split].
        -- split; [discriminate|]. intros [H|(y & H & Hy)]; [discriminate H|].
           injection H as <-. lra.
        -- split; intros _; f_equal; lra.
        -- intros y H Hy. injection H as <-. lra.
      * assert (E : mesh_value co e (Fin x) = NaN).
        { unfold mesh_value, npow. simpl.
          destruct (Rlt_dec 0 x); [lra|]. destruct (Req_dec_T x 0); [lra|reflexivity]. }
        rewrite E. split; [|split].
        -- split; [|reflexivity]. intros _. right. exists x. split; [reflexivity|lra].
        -- split; [discriminate|]. intros H. injection H as H. lra.
        -- intros y H Hy. injection H as <-. lra.
Qed.

(** Under each of the three methods the MESH grid has the shape of the
    SHI grid, and a MESH cell is missing exactly when its SHI is missing
    or negative (a negative number has no fractional power), 0 exactly
    when its SHI is 0, and a positive number when its SHI is positive. *)
Theorem mesh_is_missing_zero_or_positive (method : string) (shi m : grid) (d c : string) :
  calc_mesh method shi = Ok (m, d, c) ->
  (forall rows cols, has_shape rows cols shi -> has_shape rows cols m) /\
  (forall a r s, cell shi a r = Some s ->
     exists v, cell m a r = Some v /\
       (v = NaN <-> s = NaN \/ exists x, s = Fin x /\ x < 0) /\
       (v = Fin 0 <-> s = Fin 0) /\
       (forall x, s = Fin x -> 0 < x -> exists y, v = Fin y /\ 0 < y)).
Proof.
  intros H. destruct (calc_mesh_law method shi m d c H) as (co & e & Hc & He & ->).
  split.
  - intros rows cols. apply has_shape_map.
  - intros a r s Hs. exists (mesh_value co e s). split.
    + now rewrite cell_map, Hs.
    + now apply mesh_value_sign.
Qed.

(** A grid with a missing, a negative, a zero and a positive SHI, under
    the method mh2019_75. *)
Lemma mesh_is_missing_zero_or_positive_witness :
  (forall rows cols,
     has_shape rows cols [[NaN; Fin (-1)]; [Fin 0; Fin 100]] ->
     has_shape rows cols
       (grid_map (mesh_value 15.096 0.206) [[NaN; Fin (-1)]; [Fin 0; Fin 100]])) /\
  (forall a r s, cell [[NaN; Fin (-1)]; [Fin 0; Fin 100]] a r = Some s ->
     exists v,
       cell (grid_map (mesh_value 15.096 0.206) [[NaN; Fin (-1)]; [Fin 0; Fin 100]]) a r
         = Some v /\
       (v = NaN <-> s = NaN \/ exists x, s = Fin x /\ x < 0) /\
       (v = Fin 0 <-> s = Fin 0) /\
       (forall x, s = Fin x -> 0 < x -> exists y, v = Fin y /\ 0 < y)).
Proof.
  apply (mesh_is_missing_zero_or_positive "mh2019_75"
           [[NaN; Fin (-1)]; [Fin 0; Fin 100]] _ mh_reference
           "75th percentile fit using 5897 hail reports; only valid in the first sweep").
  reflexivity.
Defined.

(** For an SHI of 0 or of at least 1 the fit to the 95th percentile
    gives a hail size that is not below the one of the fit to the 75th
    percentile of the same reports. *)
Theorem higher_percentile_is_not_smaller (shi : grid) (a r : nat) (x : R) :
  cell shi a r = Some (Fin x) -> x = 0 \/ 1 <= x ->
  exists m75 m95 d75 c75 d95 c95 v75 v95,
    calc_mesh "mh2019_75" shi = Ok (m75, d75, c75) /\
    calc_mesh "mh2019_95" shi = Ok (m95, d95, c95) /\
    cell m75 a r = Some (Fin v75) /\ cell m95 a r = Some (Fin v95) /\
    0 <= v75 <= v95.
Proof.
  intros Hs Hx.
  assert (E : exists v75 v95,
             mesh_value 15.096 0.206 (Fin x) = Fin v75 /\
             mesh_value 22.157 0.212 (Fin x) = Fin v95 /\ 0 <= v75 <= v95).
  { destruct Hx as [->|Hx].
    - exists (15.096 * 0), (22.157 * 0).
      rewrite !mesh_value_zero by lra. repeat split; lra.
    - exists (15.096 * Rpower x 0.206), (22.157 * Rpower x 0.212).
      rewrite !mesh_value_positive by lra. split; [reflexivity|]. split; [reflexivity|].
      assert (H1 : 0 < Rpower x 0.206) by apply exp_pos.
      assert (H2 : Rpower x 0.206 <= Rpower x 0.212) by (apply Rle_Rpower; lra).
      lra. }
  destruct E as (v75 & v95 & E1 & E2 & Hle).
  eexists _, _, _, _, _, _, v75, v95.
  split; [reflexivity|]. split; [reflexivity|].
  rewrite !cell_map, Hs. simpl. rewrite E1, E2. repeat split; lra.
Qed.

(** An SHI of 100. *)
Lemma higher_percentile_is_not_smaller_witness :
  exists m75 m95 d75 c75 d95 c95 v75 v95,
    calc_mesh "mh2019_75" [[Fin 100]] = Ok (m75, d75, c75) /\
    calc_mesh "mh2019_95" [[Fin 100]] = Ok (m95, d95, c95) /\
    cell m75 0 0 = Some (Fin v75) /\ cell m95 0 0 = Some (Fin v95) /\
    0 <= v75 <= v95.
Proof.
  apply (higher_percentile_is_not_smaller [[Fin 100]] 0 0 100); [reflexivity|].
  right. lra.
Defined.
(** ** The nearest cell of a higher sweep (lines 172-174) *)

Lemma concat_length_shape {A : Type} (rows cols : nat) (g : list (list A)) :
  has_shape rows cols g -> length (concat g) = (rows * cols)%nat.
Proof.
  intros [HL HF]. subst rows. induction HF as [|row g Hr HF IH]; [reflexivity|].
  simpl. rewrite length_app, IH, Hr. reflexivity.
Qed.

Lemma concat_lookup_cell {A : Type} (rows cols : nat) (g : list (list A)) (a r : nat) :
  has_shape rows cols g -> (r < cols)%nat ->
  concat g !! (a * cols + r)%nat = cell g a r.
Proof.
  intros [_ HF] Hlt. revert a. induction HF as [|row g Hr HF IH]; intros a.
  - unfold cell. simpl. now rewrite !lookup_nil.
  - destruct a as [|a]; simpl.
    + unfold cell. simpl. apply lookup_app_l. lia.
    + unfold cell in *. simpl. rewrite lookup_app_r by lia.
      replace (cols + a * cols + r - length row)%nat with (a * cols + r)%nat by lia.
      apply IH.
Qed.

Lemma concat_lookup_flat {A : Type} (rows cols : nat) (g : list (list A)) (k : nat) :
  has_shape rows cols g -> (0 < cols)%nat ->
  concat g !! k = cell g (k / cols) (k mod cols).
Proof.
  intros Hg Hc. rewrite (Nat.div_mod_eq k cols) at 1.
  rewrite (Nat.mul_comm cols). apply (concat_lookup_cell rows); [exact Hg|].
  apply Nat.mod_upper_bound. lia.
Qed.

Lemma cell_in_shape {A : Type} (rows cols : nat) (g : list (list A)) (a r : nat) (v : A) :
  has_shape rows cols g -> cell g a r = Some v -> (a < rows)%nat /\ (r < cols)%nat.
Proof.
  intros [HL HF] H. unfold cell in H.
  destruct (g !! a) as [row|] eqn:E; [|discriminate H].
  split.
  - rewrite <- HL. eapply lookup_lt_Some. exact E.
  - rewrite <- (proj1 (Forall_lookup _ g) HF a row E). eapply lookup_lt_Some. exact H.
Qed.

Lemma cell_exists {A : Type} (rows cols : nat) (g : list (list A)) (a r : nat) :
  has_shape rows cols g -> (a < rows)%nat -> (r < cols)%nat ->
  exists v, cell g a r = Some v.
Proof.
  intros [HL HF] Ha Hr. unfold cell.
  destruct (lookup_lt_is_Some_2 g a) as [row E]; [lia|]. rewrite E.
  pose proof (proj1 (Forall_lookup _ g) HF a row E) as Hrow. simpl in Hrow.
  destruct (lookup_lt_is_Some_2 row r) as [v Ev]; [lia|]. now exists v.
Qed.

Lemma cell_finite (g : grid) (a r : nat) (v : num) :
  Forall (Forall finite_num) g -> cell g a r = Some v -> finite_num v.
Proof.
  intros HF H. unfold cell in H.
  destruct (g !! a) as [row|] eqn:E; [|discriminate H].
  pose proof (proj1 (Forall_lookup _ g) HF a row E) as Hrow.
  exact (proj1 (Forall_lookup _ row) Hrow r v H).
Qed.

Lemma argmin_from_least (t : vec) : forall (pre : vec) (b : R) (bi : nat),
  pre !! bi = Some (Fin b) ->
  (forall j v, pre !! j = Some (Fin v) -> b <= v) ->
  (forall j v, (j < bi)%nat -> pre !! j = Some (Fin v) -> b < v) ->
  Forall finite_num t ->
  exists m,
    (pre ++ t)%list !! argmin_from (Fin b) bi (length pre) t = Some (Fin m) /\
    (forall j v, (pre ++ t)%list !! j = Some (Fin v) -> m <= v) /\
    (forall j v, (j < argmin_from (Fin b) bi (length pre) t)%nat ->
                 (pre ++ t)%list !! j = Some (Fin v) -> m < v).
Proof.
  induction t as [|x t IH]; intros pre b bi Hb Hle Hlt HF.
  - simpl. rewrite app_nil_r. exists b. auto.
  - apply Forall_cons in HF. destruct HF as [[y ->] HF].
    assert (Hbi : (bi < length pre)%nat) by (eapply lookup_lt_Some; exact Hb).
    simpl. unfold nltb, ncmp, Rltb.
    destruct (Rlt_dec y b) as [C|C].
    + specialize (IH (pre ++ [Fin y])%list y (length pre)).
      rewrite length_app in IH. simpl in IH. rewrite Nat.add_1_r in IH.
      rewrite <- app_assoc in IH. simpl in IH.
      apply IH; [| | |exact HF].
      * rewrite lookup_app_r by lia. now rewrite Nat.sub_diag.
      * intros j v Hj. apply lookup_app_Some in Hj. destruct Hj as [Hj|[_ Hj]].
        -- pose proof (Hle j v Hj). lra.
        -- apply list_lookup_singleton_Some in Hj. destruct Hj as [_ Hj].
           injection Hj as <-. lra.
      * intros j v Hjl Hj. rewrite lookup_app_l in Hj by lia.
        pose proof (Hle j v Hj). lra.
    + specialize (IH (pre ++ [Fin y])%list b bi).
      rewrite length_app in IH. simpl in IH. rewrite Nat.add_1_r in IH.
      rewrite <- app_assoc in IH. simpl in IH.
      apply IH; [| | |exact HF].
      * rewrite lookup_app_l by lia. exact Hb.
      * intros j v Hj. apply lookup_app_Some in Hj. destruct Hj as [Hj|[_ Hj]].
        -- exact (Hle j v Hj).
        -- apply list_lookup_singleton_Some in Hj. destruct Hj as [_ Hj].
           injection Hj as <-. lra.
      * intros j v Hjl Hj. rewrite lookup_app_l in Hj by lia.
        exact (Hlt j v Hjl Hj).
Qed.

Lemma distance_cell (x0 y0 : R) (X Y : grid) (a r : nat) (x y : R) :
  cell X a r = Some (Fin x) -> cell Y a r = Some (Fin y) ->
  cell (zip_with (zip_with nadd)
          (grid_map (fun v => nsquare (nsub (Fin x0) v)) X)
          (grid_map (fun v => nsquare (nsub (Fin y0) v)) Y)) a r
  = Some (Fin (dist2 x0 y0 x y)).
Proof.
  intros Hx Hy.
  rewrite (cell_zip_with nadd _ _ a r (nsquare (nsub (Fin x0) (Fin x)))
             (nsquare (nsub (Fin y0) (Fin y))));
    [reflexivity|rewrite cell_map, Hx|rewrite cell_map, Hy]; reflexivity.
Qed.

Lemma nearest_cell_empty (x0 y0 : num) (X Y : grid) (rows cols : nat) :
  has_shape rows cols X -> has_shape rows cols Y -> (rows = 0 \/ cols = 0)%nat ->
  exists msg, nearest_cell x0 y0 X Y = Err (ValueError msg).
Proof.
  intros HX HY H0.
  destruct (grid_zip_same_shape nadd rows cols
              (grid_map (fun v => nsquare (nsub x0 v)) X)
              (grid_map (fun v => nsquare (nsub y0 v)) Y))
    as [Ed Hd]; [now apply has_shape_map..|].
  pose proof (concat_length_shape rows cols _ Hd) as Hlen.
  unfold nearest_cell. rewrite Ed. simpl. unfold np_argmin.
  destruct (concat _) as [|q t].
  - eexists. reflexivity.
  - simpl in Hlen. destruct H0 as [-> | ->]; lia.
Qed.

Lemma nearest_cell_least (x0 y0 : R) (X Y : grid) (rows cols : nat) :
  has_shape rows cols X -> has_shape rows cols Y ->
  Forall (Forall finite_num) X -> Forall (Forall finite_num) Y ->
  (0 < rows)%nat -> (0 < cols)%nat ->
  exists a r xa ya,
    nearest_cell (Fin x0) (Fin y0) X Y = Ok (Z.of_nat a, Z.of_nat r) /\
    (a < rows)%nat /\ (r < cols)%nat /\
    cell X a r = Some (Fin xa) /\ cell Y a r = Some (Fin ya) /\
    (forall a' r' x' y',
       cell X a' r' = Some (Fin x') -> cell Y a' r' = Some (Fin y') ->
       dist2 x0 y0 xa ya <= dist2 x0 y0 x' y') /\
    (forall a' r' x' y',
       cell X a' r' = Some (Fin x') -> cell Y a' r' = Some (Fin y') ->
       (a' < a \/ (a' = a /\ r' < r))%nat ->
       dist2 x0 y0 xa ya < dist2 x0 y0 x' y').
Proof.
  intros HX HY FX FY Hr Hc.
  set (d := zip_with (zip_with nadd)
              (grid_map (fun v => nsquare (nsub (Fin x0) v)) X)
              (grid_map (fun v => nsquare (nsub (Fin y0) v)) Y)).
  destruct (grid_zip_same_shape nadd rows cols
              (grid_map (fun v => nsquare (nsub (Fin x0) v)) X)
              (grid_map (fun v => nsquare (nsub (Fin y0) v)) Y))
    as [Ed Hd]; [now apply has_shape_map..|].
  fold d in Ed, Hd.
  pose proof (concat_length_shape rows cols d Hd) as Hlen.
  unfold nearest_cell. rewrite Ed. simpl. unfold np_argmin.
  assert (Hcells : forall a r, (a < rows)%nat -> (r < cols)%nat ->
            exists x y, cell X a r = Some (Fin x) /\ cell Y a r = Some (Fin y) /\
                        cell d a r = Some (Fin (dist2 x0 y0 x y))).
  { intros a r Ha Hrr.
    destruct (cell_exists rows cols X a r HX Ha Hrr) as [vx Hx].
    destruct (cell_exists rows cols Y a r HY Ha Hrr) as [vy Hy].
    destruct (cell_finite X a r vx FX Hx) as [x ->].
    destruct (cell_finite Y a r vy FY Hy) as [y ->].
    exists x, y. split; [exact Hx|]. split; [exact Hy|].
    now apply distance_cell. }
  assert (Hdiv : forall k, (k < rows * cols)%nat ->
            (k / cols < rows)%nat /\ (k mod cols < cols)%nat).
  { intros k Hk. split.
    - apply Nat.Div0.div_lt_upper_bound. lia.
    - apply Nat.mod_upper_bound. lia. }
  assert (Hall : Forall finite_num (concat d)).
  { apply Forall_lookup. intros k v Hk.
    assert (Hlt : (k < rows * cols)%nat).
    { rewrite <- Hlen. eapply lookup_lt_Some. exact Hk. }
    destruct (Hdiv k Hlt) as [Ha Hb].
    destruct (Hcells _ _ Ha Hb) as (x & y & _ & _ & Hcd).
    rewrite (concat_lookup_flat rows cols d k Hd Hc), Hcd in Hk.
    injection Hk as <-. eexists. reflexivity. }
  destruct (concat d) as [|q t] eqn:Ec.
  { simpl in Hlen. nia. }
  apply Forall_cons in Hall. destruct Hall as [[q0 ->] Ht].
  destruct (argmin_from_least t [Fin q0] q0 0%nat) as (m & Hk & Hmin & Hfirst);
    [reflexivity| | |exact Ht|].
  { intros j v Hj. apply list_lookup_singleton_Some in Hj.
    destruct Hj as [_ Hj]. injection Hj as <-. lra. }
  { intros j v Hj. lia. }
  simpl length in Hk, Hfirst. simpl app in Hk, Hmin, Hfirst.
  set (k := argmin_from (Fin q0) 0 1 t) in *.
  assert (Hlt : (k < rows * cols)%nat).
  { rewrite <- Hlen. eapply lookup_lt_Some. exact Hk. }
  destruct (Hdiv k Hlt) as [Ha Hb].
  destruct (Hcells _ _ Ha Hb) as (xa & ya & Hxa & Hya & Hda).
  assert (Hm : m = dist2 x0 y0 xa ya).
  { rewrite <- Ec, (concat_lookup_flat rows cols d k Hd Hc), Hda in Hk.
    now injection Hk as <-. }
  assert (Hshape : shape X = (rows, cols)).
  { unfold shape. destruct HX as [HL HF]. destruct X as [|row X']; simpl in *; [lia|].
    apply Forall_cons in HF. destruct HF as [Hrow _]. now rewrite HL, Hrow. }
  assert (Hflat : forall a' r' x' y',
            cell X a' r' = Some (Fin x') -> cell Y a' r' = Some (Fin y') ->
            (r' < cols)%nat /\
            (Fin q0 :: t) !! (a' * cols + r')%nat = Some (Fin (dist2 x0 y0 x' y'))).
  { intros a' r' x' y' Hx' Hy'.
    destruct (cell_in_shape rows cols X a' r' _ HX Hx') as [_ Hr'].
    split; [exact Hr'|].
    rewrite <- Ec, (concat_lookup_cell rows cols d a' r' Hd Hr').
    now apply distance_cell. }
  exists (k / cols)%nat, (k mod cols)%nat, xa, ya.
  split.
  { unfold unravel_index. rewrite Hshape. simpl.
    destruct (Nat.ltb_spec k (rows * cols)) as [_|Hge]; [reflexivity|lia]. }
  split; [exact Ha|]. split; [exact Hb|].
  split; [exact Hxa|]. split; [exact Hya|]. rewrite <- Hm. split.
  + intros a' r' x' y' Hx' Hy'.
    destruct (Hflat a' r' x' y' Hx' Hy') as [_ Hl]. exact (Hmin _ _ Hl).
  + intros a' r' x' y' Hx' Hy' Hord.
    destruct (Hflat a' r' x' y' Hx' Hy') as [Hr' Hl].
    apply (Hfirst _ _) in Hl; [exact Hl|].
    pose proof (Nat.div_mod_eq k cols) as Hk'.
    destruct Hord as [Hlo|[-> Hlo]]; nia.
Qed.

(** For two coordinate grids of one shape without missing values, line
    173 finds a cell of the sweep whose squared horizontal distance to
    the ground position is the least of the sweep, and of the cells at
    that distance the first one in row-major order; the index lies in
    the grid.  A sweep without rays or without range bins is refused by
    [np.argmin]. *)
Theorem nearest_cell_is_nearest (x0 y0 : R) (X Y : grid) (rows cols : nat) :
  has_shape rows cols X -> has_shape rows cols Y ->
  Forall (Forall finite_num) X -> Forall (Forall finite_num) Y ->
  ((rows = 0 \/ cols = 0)%nat ->
   exists msg, nearest_cell (Fin x0) (Fin y0) X Y = Err (ValueError msg)) /\
  ((0 < rows)%nat -> (0 < cols)%nat ->
   exists a r xa ya,
     nearest_cell (Fin x0) (Fin y0) X Y = Ok (Z.of_nat a, Z.of_nat r) /\
     cell X a r = Some (Fin xa) /\ cell Y a r = Some (Fin ya) /\
     (forall a' r' x' y',
        cell X a' r' = Some (Fin x') -> cell Y a' r' = Some (Fin y') ->
        dist2 x0 y0 xa ya <= dist2 x0 y0 x' y') /\
     (forall a' r' x' y',
        cell X a' r' = Some (Fin x') -> cell Y a' r' = Some (Fin y') ->
        (a' < a \/ (a' = a /\ r' < r))%nat ->
        dist2 x0 y0 xa ya < dist2 x0 y0 x' y')).
Proof.
  intros HX HY FX FY. split.
  - now apply (nearest_cell_empty (Fin x0) (Fin y0) X Y rows cols).
  - intros Hr Hc.
    destruct (nearest_cell_least x0 y0 X Y rows cols HX HY FX FY Hr Hc)
      as (a & r & xa & ya & E & _ & _ & H).
    exists a, r, xa, ya. split; [exact E|exact H].
Qed.

(** A ground position at 8 km east on a ray with cells at 0 and 10 km. *)
Lemma nearest_cell_is_nearest_witness :
  exists a r xa ya,
    nearest_cell (Fin 8000) (Fin 0) [[Fin 0; Fin 10000]] [[Fin 0; Fin 0]] =
      Ok (Z.of_nat a, Z.of_nat r) /\
    cell [[Fin 0; Fin 10000]] a r = Some (Fin xa) /\
    cell [[Fin 0; Fin 0]] a r = Some (Fin ya) /\
    (forall a' r' x' y',
       cell [[Fin 0; Fin 10000]] a' r' = Some (Fin x') ->
       cell [[Fin 0; Fin 0]] a' r' = Some (Fin y') ->
       dist2 8000 0 xa ya <= dist2 8000 0 x' y') /\
    (forall a' r' x' y',
       cell [[Fin 0; Fin 10000]] a' r' = Some (Fin x') ->
       cell [[Fin 0; Fin 0]] a' r' = Some (Fin y') ->
       (a' < a \/ (a' = a /\ r' < r))%nat ->
       dist2 8000 0 xa ya < dist2 8000 0 x' y').
Proof.
  apply (proj2 (nearest_cell_is_nearest 8000 0 [[Fin 0; Fin 10000]] [[Fin 0; Fin 0]] 1 2
                  ltac:(split; [reflexivity|repeat constructor])
                  ltac:(split; [reflexivity|repeat constructor])
                  ltac:(repeat constructor; eexists; reflexivity)
                  ltac:(repeat constructor; eexists; reflexivity))); lia.
Defined.
(** ** The contribution of a higher sweep (lines 171-181) *)

Lemma grid_item_cell {A : Type} (g : list (list A)) (a r : nat) (v : A) :
  cell g a r = Some v -> grid_item g (Z.of_nat a) (Z.of_nat r) = Ok v.
Proof.
  unfold cell, grid_item. intros H. rewrite item_of_nat.
  destruct (g !! a) as [row|]; [|discriminate H]. simpl.
  now rewrite item_of_nat, H.
Qed.

(** For a higher sweep whose coordinate grids, mask and SHI elements
    have one shape, the step of the inner loop returns: it looks up the
    mask and the SHI element at the cell nearest to the ground position,
    adds the element to the running sum when the mask is set there and
    the element is not 0, and leaves the sum as it was otherwise. *)
Theorem higher_sweep_adds_nearest_element (st : sweeps) (x0 y0 : R) (shi_value : num)
    (sweep_idx : nat) (X Y E : grid) (V : mask) (rows cols : nat) :
  x_dataset st !! sweep_idx = Some X -> y_dataset st !! sweep_idx = Some Y ->
  valid_dataset st !! sweep_idx = Some V ->
  SHI_elements_dataset st !! sweep_idx = Some (Arr2 E) ->
  has_shape rows cols X -> has_shape rows cols Y ->
  has_shape rows cols V -> has_shape rows cols E ->
  Forall (Forall finite_num) X -> Forall (Forall finite_num) Y ->
  (0 < rows)%nat -> (0 < cols)%nat ->
  exists a r ok e,
    nearest_cell (Fin x0) (Fin y0) X Y = Ok (Z.of_nat a, Z.of_nat r) /\
    cell V a r = Some ok /\ cell E a r = Some e /\
    add_sweep st (Fin x0) (Fin y0) shi_value sweep_idx =
      Ok (if ok && negb (neqb e (Fin 0)) then nadd shi_value e else shi_value).
Proof.
  intros Hx Hy Hv He HX HY HV HE FX FY Hr Hc.
  destruct (nearest_cell_least x0 y0 X Y rows cols HX HY FX FY Hr Hc)
    as (a & r & xa & ya & En & Ha & Hb & _).
  destruct (cell_exists rows cols V a r HV Ha Hb) as [ok Hok].
  destruct (cell_exists rows cols E a r HE Ha Hb) as [e Hel].
  exists a, r, ok, e. split; [exact En|]. split; [exact Hok|]. split; [exact Hel|].
  unfold add_sweep. rewrite !item_of_nat, Hx, Hy, Hv, He. simpl.
  rewrite En. simpl. rewrite (grid_item_cell V a r ok Hok). simpl.
  destruct ok; simpl; [|reflexivity].
  rewrite (grid_item_cell E a r e Hel). simpl.
  now destruct (neqb e (Fin 0)).
Qed.

(** Two sweeps of one ray with cells at 0 and 10 km; the second cell of
    the higher sweep is valid and holds the element 5. *)
Lemma higher_sweep_adds_nearest_element_witness :
  exists a r ok e,
    nearest_cell (Fin 8000) (Fin 0) [[Fin 0; Fin 10000]] [[Fin 0; Fin 0]] =
      Ok (Z.of_nat a, Z.of_nat r) /\
    cell [[false; true]] a r = Some ok /\ cell [[Fin 3; Fin 5]] a r = Some e /\
    add_sweep
      (mkSweeps [] [[[Fin 0; Fin 10000]]; [[Fin 0; Fin 10000]]]
         [[[Fin 0; Fin 0]]; [[Fin 0; Fin 0]]] [] [] []
         [Arr2 [[Fin 1; Fin 2]]; Arr2 [[Fin 3; Fin 5]]]
         [[[true; true]]; [[false; true]]] "" None None)
      (Fin 8000) (Fin 0) (Fin 2) 1 =
      Ok (if ok && negb (neqb e (Fin 0)) then nadd (Fin 2) e else Fin 2).
Proof.
  apply (higher_sweep_adds_nearest_element
           (mkSweeps [] [[[Fin 0; Fin 10000]]; [[Fin 0; Fin 10000]]]
              [[[Fin 0; Fin 0]]; [[Fin 0; Fin 0]]] [] [] []
              [Arr2 [[Fin 1; Fin 2]]; Arr2 [[Fin 3; Fin 5]]]
              [[[true; true]]; [[false; true]]] "" None None)
           8000 0 (Fin 2) 1 [[Fin 0; Fin 10000]] [[Fin 0; Fin 0]] [[Fin 3; Fin 5]]
           [[false; true]] 1 2);
    try reflexivity; try lia;
    try (split; [reflexivity|repeat constructor]);
    repeat constructor; eexists; reflexivity.
Defined.
(** ** The returned fields (lines 186-259) *)

Section Fields.

Variable safe_log : num -> num * num.

(** With one of the three methods the retrievals and the packaging
    return four fields for every SHI grid: the kinetic energy field
    holds the list of the per-sweep grids and has no comment, the SHI
    field holds the SHI grid as it was computed, the MESH and POSH grids
    have the shape of the SHI grid, and the description of every field
    ends with the note on the reflectivity correction. *)
Theorem recognised_method_gives_four_fields (a : args) (meltlayer : num) (st : sweeps)
    (shi : grid) (rows cols : nat) :
  In (mesh_method a) ["witt1998"; "mh2019_75"; "mh2019_95"]%string ->
  has_shape rows cols shi ->
  exists ke s m p,
    retrieve safe_log a (meltlayer, st, shi) = Ok (ke, s, m, p) /\
    data ke = hail_ke_dataset st /\ comments _ ke = None /\
    data s = shi /\
    has_shape rows cols (data m) /\ has_shape rows cols (data p) /\
    (forall d, In d [description _ ke; description _ s; description _ m; description _ p] ->
       exists prefix, d = (prefix ++ hail_refl_correction_description st)%string).
Proof.
  intros Hm Hs. unfold retrieve. simpl.
  rewrite calc_posh_total.
  assert (Hmesh : exists co e dsc c,
            calc_mesh (mesh_method a) shi = Ok (grid_map (mesh_value co e) shi, dsc, c)).
  { destruct Hm as [<-|[<-|[<-|[]]]]; eexists _, _, _, _; reflexivity. }
  destruct Hmesh as (co & e & dsc & c & ->). simpl.
  eexists _, _, _, _. split; [reflexivity|]. simpl.
  split; [reflexivity|]. split; [reflexivity|]. split; [reflexivity|].
  split; [now apply has_shape_map|]. split; [now apply has_shape_map|].
  intros d [<-|[<-|[<-|[<-|[]]]]].
  - exists ("Hail Kinetic Energy " ++ witt_citation)%string. reflexivity.
  - exists ("Severe Hail Index " ++ witt_citation_year)%string. reflexivity.
  - exists dsc. reflexivity.
  - exists ("Probability of Severe Hail " ++ witt_citation_year)%string. reflexivity.
Qed.

End Fields.

(** A two-by-two SHI grid under the method mh2019_75, with the
    logarithm that returns -10 for what has no logarithm. *)
Lemma recognised_method_gives_four_fields_witness :
  exists ke s m p,
    retrieve tolerant_log (with_levels ten_sweeps [Fin 3000; Fin 5000])
      (Fin 3000, mkSweeps [] [] [] [] [] [] [] [] "" None None, uniform 2 2 100)
      = Ok (ke, s, m, p) /\
    data ke = [] /\ comments _ ke = None /\
    data s = uniform 2 2 100 /\
    has_shape 2 2 (data m) /\ has_shape 2 2 (data p) /\
    (forall d, In d [description _ ke; description _ s; description _ m; description _ p] ->
       exists prefix, d = (prefix ++ EmptyString)%string).
Proof.
  apply (recognised_method_gives_four_fields tolerant_log
           (with_levels ten_sweeps [Fin 3000; Fin 5000]) (Fin 3000)
           (mkSweeps [] [] [] [] [] [] [] [] "" None None) (uniform 2 2 100) 2 2).
  - right. left. reflexivity.
  - split; [reflexivity|repeat constructor].
Defined.

(** ** The validity mask as a block (lines 145-152) *)

(** For a temperature weight, a kinetic energy and a ground range grid
    of one shape, lines 146-151 return a mask of that shape and never
    raise; a cell of the mask is true exactly when its weight and its
    energy are positive and its ground range lies strictly between 1000
    times the least and 1000 times the greatest range.  A cell with a
    missing weight, energy or ground range is false. *)
Theorem valid_mask_is_a_conjunction (Wt hail_ke ground_range : grid) (minr maxr : num)
    (rows cols : nat) :
  has_shape rows cols Wt -> has_shape rows cols hail_ke ->
  has_shape rows cols ground_range ->
  exists valid,
    calc_valid Wt hail_ke ground_range minr maxr = Ok valid /\
    has_shape rows cols valid /\
    (forall a r w k g,
       cell Wt a r = Some w -> cell hail_ke a r = Some k ->
       cell ground_range a r = Some g ->
       cell valid a r =
         Some (ngtb w (Fin 0) && ngtb k (Fin 0) &&
               ngtb g (nmul minr (Fin 1000)) && nltb g (nmul maxr (Fin 1000)))) /\
    (forall w k g mn mx : R,
       ngtb (Fin w) (Fin 0) && ngtb (Fin k) (Fin 0) &&
       ngtb (Fin g) (nmul (Fin mn) (Fin 1000)) &&
       nltb (Fin g) (nmul (Fin mx) (Fin 1000)) = true <->
       0 < w /\ 0 < k /\ mn * 1000 < g < mx * 1000) /\
    (forall w k g,
       w = NaN \/ k = NaN \/ g = NaN ->
       ngtb w (Fin 0) && ngtb k (Fin 0) &&
       ngtb g (nmul minr (Fin 1000)) && nltb g (nmul maxr (Fin 1000)) = false).
Proof.
  intros HW Hk Hg.
  pose (mW := grid_map (fun v => ngtb v (Fin 0)) Wt).
  pose (mK := grid_map (fun v => ngtb v (Fin 0)) hail_ke).
  pose (mLo := grid_map (fun v => ngtb v (nmul minr (Fin 1000))) ground_range).
  pose (mHi := grid_map (fun v => nltb v (nmul maxr (Fin 1000))) ground_range).
  destruct (grid_zip_same_shape andb rows cols mW mK) as [E1 S1];
    [now apply has_shape_map..|].
  destruct (grid_zip_same_shape andb rows cols (zip_with (zip_with andb) mW mK) mLo)
    as [E2 S2]; [exact S1|now apply has_shape_map|].
  destruct (grid_zip_same_shape andb rows cols
              (zip_with (zip_with andb) (zip_with (zip_with andb) mW mK) mLo) mHi)
    as [E3 S3]; [exact S2|now apply has_shape_map|].
  eexists. split.
  { unfold calc_valid. fold mW mK mLo mHi. rewrite E1. simpl. rewrite E2. simpl.
    exact E3. }
  split; [exact S3|]. split; [|split].
  - intros a r w k g HWc Hkc Hgc.
    apply cell_zip_with; [apply cell_zip_with; [apply cell_zip_with|]|].
    + unfold mW. now rewrite cell_map, HWc.
    + unfold mK. now rewrite cell_map, Hkc.
    + unfold mLo. now rewrite cell_map, Hgc.
    + unfold mHi. now rewrite cell_map, Hgc.
  - apply valid_condition.
  - intros w k g [-> | [-> | ->]].
    + reflexivity.
    + now destruct (ngtb w (Fin 0)).
    + assert (E : ngtb NaN (nmul minr (Fin 1000)) = false).
      { unfold ngtb, nltb, ncmp. now destruct (nmul minr (Fin 1000)). }
      rewrite E. now destruct (ngtb w (Fin 0)), (ngtb k (Fin 0)).
Qed.

(** One cell 50 km from the radar, inside the window from 10 km to
    150 km. *)
Lemma valid_mask_is_a_conjunction_witness :
  exists valid,
    calc_valid [[Fin 1]] [[Fin 7]] [[Fin 50000]] (Fin 10) (Fin 150) = Ok valid /\
    has_shape 1 1 valid /\
    (forall a r w k g,
       cell [[Fin 1]] a r = Some w -> cell [[Fin 7]] a r = Some k ->
       cell [[Fin 50000]] a r = Some g ->
       cell valid a r =
         Some (ngtb w (Fin 0) && ngtb k (Fin 0) &&
               ngtb g (nmul (Fin 10) (Fin 1000)) && nltb g (nmul (Fin 150) (Fin 1000)))) /\
    (forall w k g mn mx : R,
       ngtb (Fin w) (Fin 0) && ngtb (Fin k) (Fin 0) &&
       ngtb (Fin g) (nmul (Fin mn) (Fin 1000)) &&
       nltb (Fin g) (nmul (Fin mx) (Fin 1000)) = true <->
       0 < w /\ 0 < k /\ mn * 1000 < g < mx * 1000) /\
    (forall w k g,
       w = NaN \/ k = NaN \/ g = NaN ->
       ngtb w (Fin 0) && ngtb k (Fin 0) &&
       ngtb g (nmul (Fin 10) (Fin 1000)) && nltb g (nmul (Fin 150) (Fin 1000)) = false).
Proof.
  apply (valid_mask_is_a_conjunction [[Fin 1]] [[Fin 7]] [[Fin 50000]]
           (Fin 10) (Fin 150) 1 1);
    (split; [reflexivity|repeat constructor]).
Defined.

(** ** The C-band correction as a block (lines 112-115) *)

(** With band C and the correction asked for, lines 113-114 put the
    corrected values, 1.113 times the reflectivity minus 3.929, into a
    new array behind the arrays of the store, bind entry [i] of the
    local list to it and record the note; every array that was in the
    store, the uncorrected one included, is as it was.  With another
    band or without the correction nothing is allocated and the list
    and the note are as they were. *)
Theorem correction_allocates_a_new_array (band : string) (correct : bool) (i : nat)
    (refl : list loc) (desc : string) (h : heap) (l : loc) (g : grid) :
  refl !! i = Some l -> h !! l = Some g ->
  (band = "C"%string /\ correct = true ->
   apply_cband_correction band correct i refl desc h =
     ((h ++ [grid_map cband_corrected g])%list,
      Ok (<[i := length h]> refl, cband_description)) /\
   (forall l' g', h !! l' = Some g' ->
      (h ++ [grid_map cband_corrected g])%list !! l' = Some g') /\
   (<[i := length h]> refl) !! i = Some (length h)) /\
  (band <> "C"%string \/ correct = false ->
   apply_cband_correction band correct i refl desc h = (h, Ok (refl, desc))).
Proof.
  intros Hl Hg. split.
  - intros [-> ->]. split; [|split].
    + unfold apply_cband_correction, bindM, lift, read, alloc, ret, deref. simpl.
      rewrite item_of_nat, Hl, Hg. reflexivity.
    + intros l' g' H. now apply lookup_app_l_Some.
    + apply list_lookup_insert_eq. eapply lookup_lt_Some. exact Hl.
  - intros Hno. unfold apply_cband_correction.
    destruct (String.eqb_spec band "C") as [->|Hb]; simpl.
    + destruct Hno as [Hno| ->]; [congruence|reflexivity].
    + reflexivity.
Qed.

(** One sweep of band C with the correction. *)
Lemma correction_allocates_a_new_array_witness :
  apply_cband_correction "C" true 0 [0%nat] "" [[[Fin 55; Fin 45]]] =
    (([[[Fin 55; Fin 45]]] ++ [grid_map cband_corrected [[Fin 55; Fin 45]]])%list,
     Ok (<[0%nat := 1%nat]> [0%nat], cband_description)) /\
  (forall l' g', [[[Fin 55; Fin 45]]] !! l' = Some g' ->
     ([[[Fin 55; Fin 45]]] ++ [grid_map cband_corrected [[Fin 55; Fin 45]]])%list !! l'
       = Some g') /\
  (<[0%nat := 1%nat]> [0%nat]) !! 0%nat = Some 1%nat.
Proof.
  apply (proj1 (correction_allocates_a_new_array "C" true 0 [0%nat] ""
                  [[[Fin 55; Fin 45]]] 0%nat [[Fin 55; Fin 45]] eq_refl eq_refl)).
  split; reflexivity.
Defined.
